(** * Things model of the gateway (src/models/things.js)

    A shallow embedding of the [Things] singleton: the map of loaded Things,
    the list of open websockets, and the operations that read and write
    them.  The collaborators the file requires ([Thing], [Database],
    [AddonManager], [Constants], the websocket objects) are represented by
    interfaces or by the part of their state that [Things] touches. *)

From Stdlib Require Import ZArith Lia.
From stdpp Require Import base option list gmap strings.

Local Open Scope string_scope.
Local Open Scope list_scope.
Local Open Scope nat_scope.
Local Open Scope stdpp_scope.

(** ** JavaScript values *)

(** An exception value: an error object with the name of its class and its
    message.  [new Error(msg)] builds one of class "Error". *)
Record JsError := mkJsError { err_name : string; err_message : string }.

Definition Error (message : string) : JsError := mkJsError "Error" message.

(** How a call or a promise ends: with a value, or with a thrown value
    (a rejection, for a promise). *)
Inductive Outcome (A : Type) : Type :=
| Resolved (a : A)
| Rejected (e : JsError).
Arguments Resolved {A} a.
Arguments Rejected {A} e.

(** A property object of a device description.  [prop_href] is its [href]
    field (absent until assigned); [prop_body] stands for the fields the
    model never reads. *)
Record Property := mkProperty {
  prop_href : option string;
  prop_body : string
}.

(** A thing description object: a record of the store, a connected device of
    the add-on manager, or the argument of [createThing].  [properties] is
    [None] when the field is missing (or otherwise falsy); [body] stands for
    the fields the model never reads. *)
Record Description := mkDescription {
  id : string;
  href : option string;
  properties : option (gmap string Property);
  body : string
}.

(** Websocket objects are compared by identity ([indexOf] uses [===]); a
    websocket is represented by its identity. *)
Definition WebSocket := nat.

(** ** Collaborators *)

(** thing.js: the [Thing] class, as far as things.js uses it: the
    constructor, the [id] field and [getDescription()].  [remove()] has no
    result; the model records its calls (see [released]). *)
Class ThingClass (Thing : Type) := {
  new_Thing : string → Description → Thing;
  thing_id : Thing → string;
  getDescription : Thing → Description
}.

(** db.js: the three calls things.js makes.  Each takes the store and gives
    how the returned promise settles together with the store afterwards. *)
Class DatabaseClass (DB : Type) := {
  db_getThings : DB → Outcome (list Description) * DB;
  db_createThing : string → Description → DB → Outcome Description * DB;
  db_removeThing : string → DB → Outcome unit * DB
}.

(** The transport behind the websockets: [delivered] logs every payload a
    [send] handed over, in order; [failing] maps the sockets whose [send]
    throws to the value thrown. *)
Record Network := mkNetwork {
  delivered : list (WebSocket * string);
  failing : gmap nat JsError
}.

(** [socket.send(payload)] *)
Definition ws_send (socket : WebSocket) (payload : string) (net : Network)
  : Network * Outcome unit :=
  match failing net !! socket with
  | Some e => (net, Rejected e)
  | None =>
      (mkNetwork (delivered net ++ [(socket, payload)]) (failing net),
       Resolved tt)
  end.

(** ** Arrays *)

(** [Array.prototype.indexOf]: the first index holding [x], or -1. *)
Fixpoint indexOf (x : WebSocket) (l : list WebSocket) : Z :=
  match l with
  | [] => (-1)%Z
  | y :: l' =>
      if decide (y = x) then 0%Z
      else let i := indexOf x l' in
           if (i <? 0)%Z then (-1)%Z else (i + 1)%Z
  end.

(** [Array.prototype.splice(start, deleteCount)] without inserted items; the
    array that remains.  A negative [start] counts from the end. *)
Definition splice {A} (start deleteCount : Z) (l : list A) : list A :=
  let len := Z.of_nat (length l) in
  let actualStart :=
    if (start <? 0)%Z then Z.max (len + start) 0 else Z.min start len in
  let actualDeleteCount := Z.min (Z.max deleteCount 0) (len - actualStart) in
  take (Z.to_nat actualStart) l
  ++ drop (Z.to_nat (actualStart + actualDeleteCount)) l.

Section Things.

Context {Thing DB : Type} `{ThingClass Thing} `{DatabaseClass DB}.

(** constants.js *)
Variables THINGS_PATH PROPERTIES_PATH : string.

(** [JSON.stringify] on a description *)
Variable JSON_stringify : Description → string.

(** ** State *)

(** The [Things] object and what it reaches.  [things] and [websockets] are
    its two fields.  [database] is the store behind db.js, [connected] the
    devices [AddonManager.getThings()] returns, [network] the transport,
    [closeListeners] the sockets with one entry per 'close' handler
    installed on them.  [queries] counts the calls of
    [Database.getThings()], [released] lists the Things whose [remove()]
    was called, latest first.  A JavaScript Map iterates in insertion
    order: [thingsOrder] lists the keys of [things] in that order. *)
Record World := mkWorld {
  things : gmap string Thing;
  websockets : list WebSocket;
  database : DB;
  connected : list Description;
  network : Network;
  closeListeners : list WebSocket;
  queries : nat;
  released : list Thing;
  thingsOrder : list string
}.

Definition set_things (m : gmap string Thing) (w : World) : World :=
  mkWorld m (websockets w) (database w) (connected w) (network w)
          (closeListeners w) (queries w) (released w) (thingsOrder w).

Definition set_websockets (l : list WebSocket) (w : World) : World :=
  mkWorld (things w) l (database w) (connected w) (network w)
          (closeListeners w) (queries w) (released w) (thingsOrder w).

Definition set_database (d : DB) (w : World) : World :=
  mkWorld (things w) (websockets w) d (connected w) (network w)
          (closeListeners w) (queries w) (released w) (thingsOrder w).

Definition set_connected (l : list Description) (w : World) : World :=
  mkWorld (things w) (websockets w) (database w) l (network w)
          (closeListeners w) (queries w) (released w) (thingsOrder w).

Definition set_network (n : Network) (w : World) : World :=
  mkWorld (things w) (websockets w) (database w) (connected w) n
          (closeListeners w) (queries w) (released w) (thingsOrder w).

Definition set_closeListeners (l : list WebSocket) (w : World) : World :=
  mkWorld (things w) (websockets w) (database w) (connected w) (network w)
          l (queries w) (released w) (thingsOrder w).

Definition set_queries (n : nat) (w : World) : World :=
  mkWorld (things w) (websockets w) (database w) (connected w) (network w)
          (closeListeners w) n (released w) (thingsOrder w).

Definition set_released (l : list Thing) (w : World) : World :=
  mkWorld (things w) (websockets w) (database w) (connected w) (network w)
          (closeListeners w) (queries w) l (thingsOrder w).

Definition set_thingsOrder (l : list string) (w : World) : World :=
  mkWorld (things w) (websockets w) (database w) (connected w) (network w)
          (closeListeners w) (queries w) (released w) l.

(** ** Promises *)

(** A promise run to completion: the state afterwards and how it settled. *)
Definition Promise (A : Type) : Type := World → World * Outcome A.

(** [Promise.resolve(a)] and a rejected promise *)
Definition resolve {A} (a : A) : Promise A := λ w, (w, Resolved a).
Definition reject {A} (e : JsError) : Promise A := λ w, (w, Rejected e).

(** [p.then(f)]: [f] runs only when [p] resolves; a rejection passes on. *)
Definition then_ {A B} (p : Promise A) (f : A → Promise B) : Promise B :=
  λ w, match p w with
       | (w', Resolved a) => f a w'
       | (w', Rejected e) => (w', Rejected e)
       end.

(** The three calls into db.js, on the world. *)
Definition Database_getThings : Promise (list Description) :=
  λ w, let '(r, db') := db_getThings (database w) in
       (set_queries (S (queries w)) (set_database db' w), r).

Definition Database_createThing (i : string) (d : Description)
  : Promise Description :=
  λ w, let '(r, db') := db_createThing i d (database w) in
       (set_database db' w, r).

Definition Database_removeThing (i : string) : Promise unit :=
  λ w, let '(r, db') := db_removeThing i (database w) in
       (set_database db' w, r).

(** ** getThings *)

(** The body of the [then] callback of [getThings]: a new Map filled by
    [things.forEach]. *)
Definition loadThings (records : list Description) : gmap string Thing :=
  foldl (λ m thing, <[id thing := new_Thing (id thing) thing]> m) ∅ records.

(** The iteration order of the Map that the callback fills: an id takes its
    place when it is set for the first time. *)
Definition loadOrder (records : list Description) : list string :=
  foldl (λ order thing,
           if bool_decide (id thing ∈ order) then order
           else order ++ [id thing])
        [] records.

(** A [getThings] call after its synchronous part: it has returned the
    resolved promise of the warm branch, or it has issued the store query
    and waits for the reply to arrive. *)
Inductive Pending : Type :=
| Immediate (m : gmap string Thing)
| Awaiting (reply : Outcome (list Description)).

(** The synchronous part of [getThings]: the size test and, on an empty
    map, the call of [Database.getThings()]. *)
Definition getThings_call (w : World) : World * Pending :=
  if bool_decide (0 < size (things w)) then (w, Immediate (things w))
  else let '(w', reply) := Database_getThings w in (w', Awaiting reply).

(** The [then] callback of [getThings]. *)
Definition getThings_then (records : list Description)
  : Promise (gmap string Thing) :=
  λ w, let w' := set_thingsOrder (loadOrder records)
                   (set_things (loadThings records) w) in
       (w', Resolved (things w')).

(** The rest of a [getThings] call, run when its promise settles. *)
Definition settle (p : Pending) : Promise (gmap string Thing) :=
  match p with
  | Immediate m => resolve m
  | Awaiting (Resolved records) => getThings_then records
  | Awaiting (Rejected e) => reject e
  end.

(** [getThings], run to completion with nothing in between. *)
Definition getThings : Promise (gmap string Thing) :=
  λ w, let '(w', p) := getThings_call w in settle p w'.

(** Sequential calls of [getThings], each run to completion before the
    next; the outcomes in call order. *)
Fixpoint getThings_times (N : nat) (w : World)
  : World * list (Outcome (gmap string Thing)) :=
  match N with
  | 0 => (w, [])
  | S N' =>
      let '(w1, r) := getThings w in
      let '(w2, rs) := getThings_times N' w1 in
      (w2, r :: rs)
  end.



(** ** getNewThings *)

Definition thingHref (i : string) : string := THINGS_PATH +:+ "/" +:+ i.

Definition propertyHref (i propertyName : string) : string :=
  THINGS_PATH +:+ "/" +:+ i +:+ PROPERTIES_PATH +:+ "/" +:+ propertyName.

(** [property.href = ...] *)
Definition setPropertyHref (h : string) (p : Property) : Property :=
  mkProperty (Some h) (prop_body p).

(** The assignments made to a connected thing that is not stored: its
    [href], then the [href] of every property the [for ... in] visits. *)
Definition address (connectedThing : Description) : Description :=
  mkDescription
    (id connectedThing)
    (Some (thingHref (id connectedThing)))
    (match properties connectedThing with
     | Some props =>
         Some (map_imap
                 (λ propertyName property,
                    Some (setPropertyHref
                            (propertyHref (id connectedThing) propertyName)
                            property))
                 props)
     | None => None
     end)
    (body connectedThing).

(** The [connectedThings.forEach] loop of [getNewThings].  The objects are
    assigned to in place, so the loop gives the connected things as they are
    afterwards, and [newThings].  Every connected thing is taken to be an
    object of its own, with property objects of its own; [reconcileInPlace]
    is the loop on the objects themselves, and the two agree on devices that
    share no property object ([reconcileInPlace_read]). *)
Fixpoint reconcile (storedThings : gmap string Thing)
    (connectedThings : list Description)
  : list Description * list Description :=
  match connectedThings with
  | [] => ([], [])
  | connectedThing :: rest =>
      let '(rest', newThings) := reconcile storedThings rest in
      if bool_decide (is_Some (storedThings !! id connectedThing))
      then (connectedThing :: rest', newThings)
      else (address connectedThing :: rest',
            address connectedThing :: newThings)
  end.

Definition getNewThings : Promise (list Description) :=
  then_ getThings (λ storedThings w,
    let connectedThings := connected w in
    let '(connectedThings', newThings) :=
      reconcile storedThings connectedThings in
    (set_connected connectedThings' w, Resolved newThings)).

(** ** createThing, getThing, getThingDescription, removeThing *)

Definition createThing (i : string) (description : Description)
  : Promise Description :=
  let thing := new_Thing i description in
  then_ (Database_createThing (thing_id thing) (getDescription thing))
    (λ thingDesc w,
       (set_thingsOrder
          (if bool_decide (is_Some (things w !! thing_id thing))
           then thingsOrder w
           else thingsOrder w ++ [thing_id thing])
          (set_things (<[thing_id thing := thing]> (things w)) w),
        Resolved thingDesc)).

Definition getThing (i : string) : Promise Thing :=
  then_ getThings (λ things,
    match things !! i with
    | Some thing => resolve thing
    | None => reject (Error ("Unable to find thing with id: " +:+ i))
    end).

Definition getThingDescription (i : string) : Promise Description :=
  then_ (getThing i) (λ thing, resolve (getDescription thing)).

Definition removeThing (i : string) : Promise unit :=
  then_ (Database_removeThing i) (λ _ w,
    match things w !! i with
    | None => (w, Resolved tt)
    | Some thing =>
        let w1 := set_released (thing :: released w) w in
        (set_thingsOrder (filter (λ k, k ≠ i) (thingsOrder w1))
           (set_things (delete i (things w1)) w1),
         Resolved tt)
    end).

(** ** Websockets *)

(** The [websockets.forEach] loop of [handleNewThing]: a [send] that throws
    ends the loop, and the call, with the thrown value. *)
Fixpoint sendEach (payload : string) (sockets : list WebSocket)
    (net : Network) : Network * Outcome unit :=
  match sockets with
  | [] => (net, Resolved tt)
  | socket :: rest =>
      match ws_send socket payload net with
      | (net', Resolved _) => sendEach payload rest net'
      | (net', Rejected e) => (net', Rejected e)
      end
  end.

Definition handleNewThing (newThing : Description) (w : World)
  : World * Outcome unit :=
  let '(net', r) :=
    sendEach (JSON_stringify newThing) (websockets w) (network w) in
  (set_network net' w, r).

(** The 'close' handler that [registerWebsocket] installs on [websocket]. *)
Definition onClose (websocket : WebSocket) (w : World) : World :=
  let index := indexOf websocket (websockets w) in
  set_websockets (splice index 1 (websockets w)) w.

Definition registerWebsocket (websocket : WebSocket) (w : World) : World :=
  let w1 := set_websockets (websockets w ++ [websocket]) w in
  set_closeListeners (closeListeners w1 ++ [websocket]) w1.

(** [websocket] emits 'close': every handler installed on it runs, in the
    order of installation. *)
Definition emitClose (websocket : WebSocket) (w : World) : World :=
  foldl (λ w' listener,
           if decide (listener = websocket) then onClose websocket w' else w')
        w (closeListeners w).

Definition clearState (w : World) : World :=
  set_thingsOrder [] (set_things ∅ (set_websockets [] w)).

(** ** getNewThings on the objects themselves *)

(** A device object as [AddonManager.getThings()] hands it out.  Its
    [properties] object is kept as its bindings in the order in which
    [for ... in] visits them; a binding gives the property's name and the
    property object, by reference.  Two bindings with the same reference
    stand for one object reached twice. *)
Record Device := mkDevice {
  dev_id : string;
  dev_href : option string;
  dev_properties : option (list (string * nat));
  dev_body : string
}.

(** [connectedThing.href = ...] *)
Definition setDeviceHref (h : string) (d : Device) : Device :=
  mkDevice (dev_id d) (Some h) (dev_properties d) (dev_body d).

(** The [for ... in] loop over [connectedThing.properties]: each binding's
    property object is assigned its href in place, in the order of the
    bindings.  [objects] holds the property objects by reference. *)
Definition addressProperties (i : string) (bindings : list (string * nat))
    (objects : gmap nat Property) : gmap nat Property :=
  foldl (λ objs binding,
           alter (setPropertyHref (propertyHref i binding.1)) binding.2 objs)
        objects bindings.

(** The [connectedThings.forEach] loop of [getNewThings] with the property
    objects assigned to in place: the connected things and the property
    objects as they are afterwards, and [newThings].  A device is held by
    value: the only field written on it is its href, which depends on its
    own id alone, so a device object reached twice is written the same value
    each time. *)
Fixpoint reconcileInPlace (storedThings : gmap string Thing)
    (connectedThings : list Device) (objects : gmap nat Property)
  : list Device * gmap nat Property * list Device :=
  match connectedThings with
  | [] => ([], objects, [])
  | connectedThing :: rest =>
      if bool_decide (is_Some (storedThings !! dev_id connectedThing))
      then
        let '(rest', objects', newThings) :=
          reconcileInPlace storedThings rest objects in
        (connectedThing :: rest', objects', newThings)
      else
        let addressed :=
          setDeviceHref (thingHref (dev_id connectedThing)) connectedThing in
        let objects1 :=
          match dev_properties connectedThing with
          | Some bindings =>
              addressProperties (dev_id connectedThing) bindings objects
          | None => objects
          end in
        let '(rest', objects', newThings) :=
          reconcileInPlace storedThings rest objects1 in
        (addressed :: rest', objects', addressed :: newThings)
  end.

(** [getNewThings] when [AddonManager.getThings()] returns
    [connectedThings] and the property objects are [objects].  It resolves
    with [newThings]; the outcome carries, before it, the connected things
    and the property objects as the call left them. *)
Definition getNewThingsInPlace (connectedThings : list Device)
    (objects : gmap nat Property)
  : Promise (list Device * gmap nat Property * list Device) :=
  then_ getThings (λ storedThings,
    resolve (reconcileInPlace storedThings connectedThings objects)).

(** [d] has the property object [r] under the name [name]. *)
Definition boundBy (d : Device) (name : string) (r : nat) : Prop :=
  ∃ bindings, dev_properties d = Some bindings ∧ (name, r) ∈ bindings.

(** No property object of a connected device that is not stored is reached
    a second way: whoever binds it is a device that is not stored either,
    has the same id and binds it under the same name. *)
Definition unshared (storedThings : gmap string Thing)
    (connectedThings : list Device) : Prop :=
  ∀ d1 d2 n1 n2 r,
    d1 ∈ connectedThings → d2 ∈ connectedThings →
    storedThings !! dev_id d1 = None →
    boundBy d1 n1 r → boundBy d2 n2 r →
    storedThings !! dev_id d2 = None ∧ dev_id d2 = dev_id d1 ∧ n2 = n1.

(** The assignments to property objects that [reconcileInPlace] makes, in
    order: the object and the href it is given. *)
Definition hrefWrites (storedThings : gmap string Thing)
    (connectedThings : list Device) : list (nat * string) :=
  connectedThings ≫= λ d,
    if bool_decide (is_Some (storedThings !! dev_id d)) then []
    else (λ binding, (binding.2, propertyHref (dev_id d) binding.1))
         <$> default [] (dev_properties d).

Definition applyWrites (writes : list (nat * string))
    (objects : gmap nat Property) : gmap nat Property :=
  foldl (λ objs write, alter (setPropertyHref write.2) write.1 objs)
        objects writes.

(** ** getThingDescriptions and the THING_ADDED listener *)

(** [getThingDescriptions]: the loop over [things.values()] visits the
    entries of the map in the Map's iteration order and pushes the
    description of each. *)
Definition getThingDescriptions : Promise (list Description) :=
  then_ getThings (λ things w,
    (w, Resolved (omap (λ k, getDescription <$> things !! k)
                       (thingsOrder w)))).

(** The listener the module installs when it is loaded:
    [AddonManager.on(Constants.THING_ADDED, ...)]. *)
Definition onThingAdded (thing : Description) (w : World)
  : World * Outcome unit :=
  handleNewThing thing w.

End Things.

(** [d] is [d0] up to href fields: same id, same other fields, the same
    property names, and under each name a property with the same other
    fields. *)
Definition sameExceptHref (d0 d : Description) : Prop :=
  id d = id d0
  ∧ body d = body d0
  ∧ option_Forall2
      (λ props0 props,
         ∀ name : string,
           option_Forall2 (λ p0 p, prop_body p = prop_body p0)
                          (props0 !! name) (props !! name))
      (properties d0) (properties d).

(** A device object read as a description: each binding of its properties
    gives the property object it refers to (the first binding of a name
    counts, a reference without object gives nothing). *)
Definition readProperties (objects : gmap nat Property)
    (bindings : list (string * nat)) : gmap string Property :=
  list_to_map
    (omap (λ binding, (λ p, (binding.1, p)) <$> objects !! binding.2) bindings).

Definition readDevice (objects : gmap nat Property) (d : Device)
  : Description :=
  mkDescription (dev_id d) (dev_href d)
                (readProperties objects <$> dev_properties d) (dev_body d).

Arguments World : clear implicits.
Arguments Promise : clear implicits.
Arguments Pending : clear implicits.

(** ** A concrete Thing and a concrete store *)

(** Modelled from the spec: the Thing class of thing.js, which is not part
    of the sources at hand.  Section 2 describes it as a wrapper around one
    device's persisted description that produces its externally visible
    description: the object keeps the id and the description it was
    constructed with. *)
Record SimpleThing := mkSimpleThing {
  st_id : string;
  st_description : Description
}.

#[export] Instance SimpleThing_class : ThingClass SimpleThing := {
  new_Thing := mkSimpleThing;
  thing_id := st_id;
  getDescription := st_description
}.

(** Modelled from the spec: the persistent store of db.js, which is not part
    of the sources at hand, after the interface of section 6.  [rows] are the
    persisted (id, description) pairs in insertion order.  [fault], when
    set, is an I/O failure: every call rejects with it. *)
Record Store := mkStore {
  rows : list (string * Description);
  fault : option JsError
}.

(** [listAll]: every row, as a description carrying the row's id. *)
Definition store_listAll (s : Store) : Outcome (list Description) * Store :=
  match fault s with
  | Some e => (Rejected e, s)
  | None =>
      (Resolved
         (map (λ row, mkDescription row.1 (href row.2) (properties row.2)
                                    (body row.2))
              (rows s)),
       s)
  end.

(** [create]: fails with a conflict when the id exists, else appends the row
    and gives the description back. *)
Definition store_create (i : string) (d : Description) (s : Store)
  : Outcome Description * Store :=
  match fault s with
  | Some e => (Rejected e, s)
  | None =>
      if bool_decide (i ∈ (rows s).*1)
      then (Rejected (mkJsError "Conflict" i), s)
      else (Resolved d, mkStore (rows s ++ [(i, d)]) (fault s))
  end.

(** [remove]: deletes the rows of the id; nothing to delete is no failure. *)
Definition store_remove (i : string) (s : Store) : Outcome unit * Store :=
  match fault s with
  | Some e => (Rejected e, s)
  | None =>
      (Resolved tt,
       mkStore (filter (λ row, row.1 ≠ i) (rows s)) (fault s))
  end.

#[export] Instance Store_class : DatabaseClass Store := {
  db_getThings := store_listAll;
  db_createThing := store_create;
  db_removeThing := store_remove
}.

(** A gateway at startup: nothing loaded, nobody listening. *)
Definition startup (s : Store) (devices : list Description) (net : Network)
  : World SimpleThing Store :=
  mkWorld ∅ [] s devices net [] 0 [] [].

(** The map counts as loaded exactly when it has an entry (the test of
    getThings). *)
Definition warm {Thing DB} (w : World Thing DB) : Prop := 0 < size (things w).

(** The ids of the map are the ids of the store. *)
Definition mirrors {Thing} (w : World Thing Store) : Prop :=
  dom (things w) = list_to_set (rows (database w)).*1.

(** [thingsOrder] is an iteration order of [things]: it lists every key of
    the map, once. *)
Definition ordered {Thing DB} (w : World Thing DB) : Prop :=
  NoDup (thingsOrder w)
  ∧ ∀ k, k ∈ thingsOrder w ↔ is_Some (things w !! k).

(** The websocket has one close handler per entry it has in the list. *)
Definition handlersMatch {Thing DB} (s : WebSocket) (w : World Thing DB)
  : Prop :=
  length (filter (λ x, x = s) (closeListeners w))
  = length (filter (λ x, x = s) (websockets w)).

(** ** Sample data *)

Definition quiet : Network := mkNetwork [] ∅.

Definition lamp : Description := mkDescription "lamp" None None "on/off".

Definition plug : Description :=
  mkDescription "plug" None
    (Some {[ "power" := mkProperty None "watts" ]}) "smart plug".

(** The connected lamp and plug as device objects, each with a power
    property object of its own (objects 0 and 1). *)
Definition lampDevice : Device :=
  mkDevice "lamp" None (Some [("power", 0)]) "on/off".

Definition plugDevice : Device :=
  mkDevice "plug" None (Some [("power", 1)]) "smart plug".

Definition powerObjects : gmap nat Property :=
  {[ 0 := mkProperty None "watts"; 1 := mkProperty None "watts" ]}.



(** The store holds the lamp; the lamp and the plug are connected. *)
Definition home : World SimpleThing Store :=
  startup (mkStore [("lamp", lamp)] None) [lamp; plug] quiet.

(** A store without records. *)
Definition emptyHome : World SimpleThing Store :=
  startup (mkStore [] None) [] quiet.

(** The store holds the plug, and every call of it rejects with [e]. *)
Definition offline (e : JsError) : World SimpleThing Store :=
  startup (mkStore [("plug", plug)] (Some e)) [] quiet.

(** Websockets 1, 2 and 3 registered on [home]; [broken] lists the sockets
    whose send throws. *)
Definition listening (broken : gmap nat JsError) : World SimpleThing Store :=
  registerWebsocket 3
    (registerWebsocket 2
       (registerWebsocket 1
          (startup (mkStore [("lamp", lamp)] None) [lamp; plug]
                   (mkNetwork [] broken)))).

(** A stand-in for [JSON.stringify]. *)
Definition serialize (d : Description) : string := id d +:+ ":" +:+ body d.

(** * Properties *)

Section Facts.

Context {Thing DB : Type} `{ThingClass Thing} `{DatabaseClass DB}.
Variables THINGS_PATH PROPERTIES_PATH : string.
Variable JSON_stringify : Description → string.

Implicit Types w : World Thing DB.

(** ** The lazy load *)

Lemma loadThings_snoc (records : list Description) (r : Description) :
  loadThings (Thing:=Thing) (records ++ [r])
  = <[id r := new_Thing (id r) r]> (loadThings records).
Proof. unfold loadThings. by rewrite foldl_snoc. Qed.

Lemma loadThings_size (records : list Description) :
  records ≠ [] → 0 < size (loadThings (Thing:=Thing) records).
Proof.
  destruct records as [|r records _] using rev_ind; [done|].
  intros _. rewrite loadThings_snoc.
  assert (size (<[id r:=new_Thing (id r) r]> (loadThings records)) ≠ 0); [|lia].
  apply map_size_non_empty_iff, insert_non_empty.
Qed.

Lemma getThings_warm w :
  0 < size (things w) → getThings w = (w, Resolved (things w)).
Proof.
  intros Hwarm. unfold getThings, getThings_call.
  by rewrite bool_decide_eq_true_2.
Qed.

Lemma getThings_cold w reply db' :
  size (things w) = 0 →
  db_getThings (database w) = (reply, db') →
  getThings w
  = settle (Awaiting reply) (set_queries (S (queries w)) (set_database db' w)).
Proof.
  intros Hcold Hdb. unfold getThings, getThings_call, Database_getThings.
  rewrite bool_decide_eq_false_2; [|lia]. by rewrite Hdb.
Qed.

Lemma getThings_times_warm (N : nat) w :
  0 < size (things w) →
  getThings_times N w = (w, replicate N (Resolved (things w))).
Proof.
  intros Hwarm. induction N as [|N IH]; [done|].
  simpl. by rewrite getThings_warm, IH.
Qed.

(** C1 (as amended): N calls of getThings in a row, starting on an empty
    map, issue exactly one Database.getThings query when that query
    resolves with at least one record; every call resolves with the loaded
    map. *)
Theorem getThings_times_one_query (N : nat) w records db' :
  1 ≤ N →
  size (things w) = 0 →
  db_getThings (database w) = (Resolved records, db') →
  records ≠ [] →
  queries (getThings_times N w).1 = queries w + 1
  ∧ (getThings_times N w).2 = replicate N (Resolved (loadThings records)).
Proof.
  intros HN Hcold Hdb Hne.
  destruct N as [|N]; [lia|]. simpl.
  rewrite (getThings_cold _ _ _ Hcold Hdb). simpl.
  unfold getThings_then. rewrite getThings_times_warm.
  - simpl. split; [lia|done].
  - simpl. by apply loadThings_size.
Qed.

(** ** Calls that overlap *)





(** ** Reconciliation with the connected devices *)

Lemma reconcile_newThings (storedThings : gmap string Thing) connectedThings :
  (reconcile THINGS_PATH PROPERTIES_PATH storedThings connectedThings).2
  = address THINGS_PATH PROPERTIES_PATH
    <$> filter (λ d, storedThings !! id d = None) connectedThings.
Proof.
  induction connectedThings as [|d rest IH]; [done|]. simpl.
  destruct (reconcile _ _ storedThings rest) as [rest' newThings].
  simpl in IH. case_bool_decide as Hhas.
  - rewrite filter_cons_False; [done|].
    intros Hnone. rewrite Hnone in Hhas. by destruct Hhas.
  - rewrite filter_cons_True; [by rewrite IH|].
    by apply eq_None_not_Some.
Qed.

Lemma reconcile_connected (storedThings : gmap string Thing) connectedThings :
  (reconcile THINGS_PATH PROPERTIES_PATH storedThings connectedThings).1
  = (λ d, if bool_decide (is_Some (storedThings !! id d)) then d
          else address THINGS_PATH PROPERTIES_PATH d)
    <$> connectedThings.
Proof.
  induction connectedThings as [|d rest IH]; [done|]. simpl.
  destruct (reconcile _ _ storedThings rest) as [rest' newThings].
  simpl in IH. case_bool_decide; simpl; by rewrite IH.
Qed.

Lemma addressProperties_writes i (bindings : list (string * nat)) objects :
  addressProperties THINGS_PATH PROPERTIES_PATH i bindings objects
  = applyWrites
      ((λ binding, (binding.2,
                    propertyHref THINGS_PATH PROPERTIES_PATH i binding.1))
       <$> bindings)
      objects.
Proof.
  unfold addressProperties, applyWrites. revert objects.
  induction bindings as [|binding bindings IH]; intros objects; [done|].
  simpl. apply IH.
Qed.

Lemma reconcileInPlace_objects (storedThings : gmap string Thing)
    connectedThings objects :
  (reconcileInPlace THINGS_PATH PROPERTIES_PATH storedThings connectedThings
     objects).1.2
  = applyWrites (hrefWrites THINGS_PATH PROPERTIES_PATH storedThings
                   connectedThings)
                objects.
Proof.
  revert objects.
  induction connectedThings as [|d rest IH]; intros objects; [done|].
  unfold hrefWrites. rewrite bind_cons. fold (hrefWrites THINGS_PATH
    PROPERTIES_PATH storedThings rest). simpl.
  case_bool_decide.
  - specialize (IH objects).
    destruct (reconcileInPlace _ _ storedThings rest objects) as [[? ?] ?].
    done.
  - unfold applyWrites. rewrite foldl_app.
    fold (applyWrites
            ((λ binding, (binding.2,
                          propertyHref THINGS_PATH PROPERTIES_PATH (dev_id d)
                                       binding.1))
             <$> default [] (dev_properties d)) objects).
    fold (applyWrites (hrefWrites THINGS_PATH PROPERTIES_PATH storedThings
                         rest)).
    rewrite <- addressProperties_writes.
    assert (match dev_properties d with
            | Some bindings =>
                addressProperties THINGS_PATH PROPERTIES_PATH (dev_id d)
                                  bindings objects
            | None => objects
            end
            = addressProperties THINGS_PATH PROPERTIES_PATH (dev_id d)
                (default [] (dev_properties d)) objects) as ->.
    { by destruct (dev_properties d). }
    specialize (IH (addressProperties THINGS_PATH PROPERTIES_PATH (dev_id d)
                      (default [] (dev_properties d)) objects)).
    destruct (reconcileInPlace _ _ storedThings rest _) as [[? ?] ?].
    done.
Qed.

Lemma reconcileInPlace_connected (storedThings : gmap string Thing)
    connectedThings objects :
  (reconcileInPlace THINGS_PATH PROPERTIES_PATH storedThings connectedThings
     objects).1.1
  = (λ d, if bool_decide (is_Some (storedThings !! dev_id d)) then d
          else setDeviceHref (thingHref THINGS_PATH (dev_id d)) d)
    <$> connectedThings.
Proof.
  revert objects.
  induction connectedThings as [|d rest IH]; intros objects; [done|]. simpl.
  case_bool_decide.
  - specialize (IH objects).
    destruct (reconcileInPlace _ _ storedThings rest objects) as [[? ?] ?].
    simpl in *. by rewrite IH.
  - match goal with
    | |- context [reconcileInPlace _ _ storedThings rest ?o] =>
        specialize (IH o);
        destruct (reconcileInPlace _ _ storedThings rest o) as [[? ?] ?]
    end.
    simpl in *. by rewrite IH.
Qed.

Lemma reconcileInPlace_newThings (storedThings : gmap string Thing)
    connectedThings objects :
  (reconcileInPlace THINGS_PATH PROPERTIES_PATH storedThings connectedThings
     objects).2
  = (λ d, setDeviceHref (thingHref THINGS_PATH (dev_id d)) d)
    <$> filter (λ d, storedThings !! dev_id d = None) connectedThings.
Proof.
  revert objects.
  induction connectedThings as [|d rest IH]; intros objects; [done|]. simpl.
  case_bool_decide as Hhas.
  - specialize (IH objects).
    destruct (reconcileInPlace _ _ storedThings rest objects) as [[? ?] ?].
    simpl in *. rewrite filter_cons_False; [done|].
    intros Hnone. rewrite Hnone in Hhas. by destruct Hhas.
  - match goal with
    | |- context [reconcileInPlace _ _ storedThings rest ?o] =>
        specialize (IH o);
        destruct (reconcileInPlace _ _ storedThings rest o) as [[? ?] ?]
    end.
    simpl in *. rewrite filter_cons_True; [by rewrite IH|].
    by apply eq_None_not_Some.
Qed.

Lemma applyWrites_other (writes : list (nat * string)) objects (r : nat) :
  r ∉ writes.*1 → applyWrites writes objects !! r = objects !! r.
Proof.
  unfold applyWrites. revert objects.
  induction writes as [|[r1 v1] writes IH]; intros objects Hr; [done|].
  simpl. rewrite IH.
  - apply lookup_alter_ne. intros ->. apply Hr. simpl. by left.
  - intros Hin. apply Hr. simpl. by right.
Qed.

Lemma applyWrites_same (writes : list (nat * string)) objects (r : nat) v :
  (∀ v', (r, v') ∈ writes → v' = v) →
  r ∈ writes.*1 →
  applyWrites writes objects !! r = setPropertyHref v <$> objects !! r.
Proof.
  revert objects.
  induction writes as [|[r1 v1] writes IH]; intros objects Hsame Hr.
  { by apply elem_of_nil in Hr. }
  change (applyWrites ((r1, v1) :: writes) objects)
    with (applyWrites writes (alter (setPropertyHref v1) r1 objects)).
  destruct (decide (r ∈ writes.*1)) as [Hin|Hnotin].
  - rewrite IH; [|by intros v' Hv'; apply Hsame; right|done].
    destruct (decide (r1 = r)) as [->|Hne].
    + rewrite lookup_alter_eq, (Hsame v1) by (by left).
      by destruct (objects !! r).
    + by rewrite lookup_alter_ne.
  - rewrite applyWrites_other by done.
    simpl in Hr. apply elem_of_cons in Hr as [->|Hr]; [|done].
    rewrite lookup_alter_eq. by rewrite (Hsame v1) by (by left).
Qed.

Lemma elem_of_hrefWrites (storedThings : gmap string Thing) connectedThings
    (r : nat) v :
  (r, v) ∈ hrefWrites THINGS_PATH PROPERTIES_PATH storedThings connectedThings
  ↔ ∃ d name,
      d ∈ connectedThings
      ∧ storedThings !! dev_id d = None
      ∧ boundBy d name r
      ∧ v = propertyHref THINGS_PATH PROPERTIES_PATH (dev_id d) name.
Proof.
  unfold hrefWrites. rewrite list_elem_of_bind. split.
  - intros (d & Hin & Hd). case_bool_decide as Hhas.
    { by apply elem_of_nil in Hin. }
    apply list_elem_of_fmap in Hin as ([name r'] & [= -> ->] & Hb).
    exists d, name. split; [done|]. split; [by apply eq_None_not_Some|].
    split; [|done]. unfold boundBy.
    destruct (dev_properties d) as [bindings|]; simpl in Hb.
    + by exists bindings.
    + by apply elem_of_nil in Hb.
  - intros (d & name & Hd & Hnone & (bindings & Hprops & Hb) & ->).
    exists d. split; [|done].
    rewrite bool_decide_eq_false_2.
    + rewrite Hprops. simpl. apply list_elem_of_fmap.
      by exists (name, r).
    + rewrite Hnone. by intros [? ?].
Qed.


Lemma written_of_new_device (storedThings : gmap string Thing)
    connectedThings objects d name (r : nat) :
  unshared storedThings connectedThings →
  d ∈ connectedThings →
  storedThings !! dev_id d = None →
  boundBy d name r →
  applyWrites (hrefWrites THINGS_PATH PROPERTIES_PATH storedThings
                 connectedThings) objects !! r
  = setPropertyHref (propertyHref THINGS_PATH PROPERTIES_PATH (dev_id d) name)
    <$> objects !! r.
Proof.
  intros Hun Hd Hnone Hbound. apply applyWrites_same.
  - intros v' (d2 & n2 & Hd2 & Hnone2 & Hbound2 & ->)%elem_of_hrefWrites.
    destruct (Hun d d2 name n2 r Hd Hd2 Hnone Hbound Hbound2) as (_ & -> & ->).
    done.
  - apply (list_elem_of_fmap_2' fst _
             (r, propertyHref THINGS_PATH PROPERTIES_PATH (dev_id d) name));
      [|done].
    apply elem_of_hrefWrites. by exists d, name.
Qed.

Lemma unwritten_of_stored_device (storedThings : gmap string Thing)
    connectedThings objects d name (r : nat) :
  unshared storedThings connectedThings →
  d ∈ connectedThings →
  is_Some (storedThings !! dev_id d) →
  boundBy d name r →
  applyWrites (hrefWrites THINGS_PATH PROPERTIES_PATH storedThings
                 connectedThings) objects !! r
  = objects !! r.
Proof.
  intros Hun Hd Hstored Hbound. apply applyWrites_other.
  intros ([r' v'] & Hr & Hin)%list_elem_of_fmap. simpl in Hr. subst r'.
  apply elem_of_hrefWrites in Hin as (d1 & n1 & Hd1 & Hnone1 & Hbound1 & _).
  destruct (Hun d1 d n1 name r Hd1 Hd Hnone1 Hbound1 Hbound) as (Hnone & _).
  rewrite Hnone in Hstored. by destruct Hstored.
Qed.

Lemma omap_cons_eq {A B} (f : A → option B) (x : A) (l : list A) :
  omap f (x :: l)
  = match f x with Some y => y :: omap f l | None => omap f l end.
Proof. done. Qed.

Lemma readProperties_unwritten (objects objects' : gmap nat Property)
    (bindings : list (string * nat)) :
  (∀ name r, (name, r) ∈ bindings → objects' !! r = objects !! r) →
  readProperties objects' bindings = readProperties objects bindings.
Proof.
  unfold readProperties. intros Hsame. f_equal.
  induction bindings as [|[name r] bindings IH]; [done|].
  rewrite !omap_cons_eq. simpl.
  rewrite (Hsame name r) by (by left).
  rewrite IH; [done|]. intros name' r' Hin. apply (Hsame name' r'). by right.
Qed.

Lemma readProperties_written i (objects objects' : gmap nat Property)
    (bindings : list (string * nat)) :
  (∀ name r, (name, r) ∈ bindings →
     objects' !! r
     = setPropertyHref (propertyHref THINGS_PATH PROPERTIES_PATH i name)
       <$> objects !! r) →
  readProperties objects' bindings
  = map_imap
      (λ propertyName property,
         Some (setPropertyHref
                 (propertyHref THINGS_PATH PROPERTIES_PATH i propertyName)
                 property))
      (readProperties objects bindings).
Proof.
  unfold readProperties. intros Hset.
  induction bindings as [|[name r] bindings IH].
  { symmetry. apply map_imap_empty. }
  rewrite !omap_cons_eq. simpl. rewrite (Hset name r) by (by left).
  assert (∀ name' r', (name', r') ∈ bindings →
            objects' !! r'
            = setPropertyHref
                (propertyHref THINGS_PATH PROPERTIES_PATH i name')
              <$> objects !! r') as Hrest.
  { intros name' r' Hin. apply (Hset name' r'). by right. }
  destruct (objects !! r) as [p|]; simpl.
  - rewrite (map_imap_insert_Some _ _ _ _
               (setPropertyHref
                  (propertyHref THINGS_PATH PROPERTIES_PATH i name) p))
      by done.
    by rewrite IH.
  - by apply IH.
Qed.

(** On devices that share no property object, [reconcile] is
    [reconcileInPlace] read as descriptions: the connected things afterwards
    and the new things agree. *)
Lemma reconcileInPlace_read (storedThings : gmap string Thing)
    connectedThings objects :
  unshared storedThings connectedThings →
  readDevice (reconcileInPlace THINGS_PATH PROPERTIES_PATH storedThings
                connectedThings objects).1.2
  <$> (reconcileInPlace THINGS_PATH PROPERTIES_PATH storedThings
         connectedThings objects).1.1
  = (reconcile THINGS_PATH PROPERTIES_PATH storedThings
       (readDevice objects <$> connectedThings)).1
  ∧ readDevice (reconcileInPlace THINGS_PATH PROPERTIES_PATH storedThings
                  connectedThings objects).1.2
    <$> (reconcileInPlace THINGS_PATH PROPERTIES_PATH storedThings
           connectedThings objects).2
    = (reconcile THINGS_PATH PROPERTIES_PATH storedThings
         (readDevice objects <$> connectedThings)).2.
Proof.
  intros Hun.
  rewrite reconcileInPlace_objects, reconcileInPlace_connected,
    reconcileInPlace_newThings, reconcile_connected, reconcile_newThings.
  set (objects' := applyWrites _ objects).
  assert (∀ d, d ∈ connectedThings →
            is_Some (storedThings !! dev_id d) →
            readDevice objects' d = readDevice objects d) as Hstored.
  { intros d Hd Hs. unfold readDevice. f_equal.
    destruct (dev_properties d) as [bindings|] eqn:Hprops; [|done].
    simpl. f_equal. apply readProperties_unwritten. intros name r Hb.
    apply (unwritten_of_stored_device storedThings connectedThings objects d
             name r); [done..|by exists bindings]. }
  assert (∀ d, d ∈ connectedThings →
            storedThings !! dev_id d = None →
            readDevice objects'
              (setDeviceHref (thingHref THINGS_PATH (dev_id d)) d)
            = address THINGS_PATH PROPERTIES_PATH (readDevice objects d))
    as Hnew.
  { intros d Hd Hnone. unfold readDevice, address. simpl. f_equal.
    destruct (dev_properties d) as [bindings|] eqn:Hprops; [|done].
    simpl. f_equal. apply readProperties_written. intros name r Hb.
    apply (written_of_new_device storedThings connectedThings objects d
             name r); [done..|by exists bindings]. }
  split.
  - rewrite <- !list_fmap_compose. apply list_fmap_ext.
    intros k d Hk%list_elem_of_lookup_2. simpl. case_bool_decide as Hs.
    + by apply Hstored.
    + apply Hnew; [done|]. by apply eq_None_not_Some.
  - rewrite <- list_fmap_compose.
    assert (filter (λ d, storedThings !! id d = None)
                   (readDevice objects <$> connectedThings)
            = readDevice objects
              <$> filter (λ d, storedThings !! dev_id d = None)
                         connectedThings) as ->.
    { clear. induction connectedThings as [|d rest IH]; [done|].
      rewrite fmap_cons.
      destruct (decide (storedThings !! dev_id d = None)) as [Hn|Hn].
      - rewrite !filter_cons_True by done. by rewrite fmap_cons, IH.
      - by rewrite !filter_cons_False by done. }
    rewrite <- list_fmap_compose. apply list_fmap_ext.
    intros k d [Hnone Hd]%list_elem_of_lookup_2%list_elem_of_filter. simpl.
    by apply Hnew.
Qed.

(** ** Lookup of one Thing *)

Lemma getThing_store_failure i w w1 e :
  getThings w = (w1, Rejected e) →
  getThing i w = (w1, Rejected e)
  ∧ getThingDescription i w = (w1, Rejected e).
Proof.
  intros Hget. unfold getThingDescription, getThing, then_. by rewrite Hget.
Qed.

Lemma getThing_present i w w1 (loaded : gmap string Thing) thing :
  getThings w = (w1, Resolved loaded) →
  loaded !! i = Some thing →
  getThing i w = (w1, Resolved thing)
  ∧ getThingDescription i w = (w1, Resolved (getDescription thing)).
Proof.
  intros Hget Hi. unfold getThingDescription, getThing, then_.
  by rewrite Hget, Hi.
Qed.

(** C4 (as amended): when getThings resolves with a map that has no entry
    for the id, getThing and getThingDescription reject with an Error object
    whose message is 'Unable to find thing with id: ' followed by the id. *)
Theorem getThing_absent i w w1 (loaded : gmap string Thing) :
  getThings w = (w1, Resolved loaded) →
  loaded !! i = None →
  getThing i w
  = (w1, Rejected (mkJsError "Error" ("Unable to find thing with id: " +:+ i)))
  ∧ getThingDescription i w
    = (w1, Rejected (mkJsError "Error"
                       ("Unable to find thing with id: " +:+ i))).
Proof.
  intros Hget Hi. unfold getThingDescription, getThing, then_.
  by rewrite Hget, Hi.
Qed.

(** ** createThing and removeThing *)

(** C6: when the store's write rejects, createThing rejects with the same
    value and the map is as before; when it resolves, the constructed Thing
    is in the map under its id and createThing resolves with the description
    the store resolved with. *)
Theorem createThing_atomic i description w r db' :
  db_createThing (thing_id (new_Thing i description))
                 (getDescription (new_Thing i description)) (database w)
  = (r, db') →
  database (createThing i description w).1 = db'
  ∧ match r with
    | Rejected e =>
        (createThing i description w).2 = Rejected e
        ∧ things (createThing i description w).1 = things w
    | Resolved thingDesc =>
        (createThing i description w).2 = Resolved thingDesc
        ∧ things (createThing i description w).1
          = <[thing_id (new_Thing i description) := new_Thing i description]>
              (things w)
        ∧ things (createThing i description w).1
            !! thing_id (new_Thing i description)
          = Some (new_Thing i description)
    end.
Proof.
  intros Hdb. unfold createThing, then_, Database_createThing.
  rewrite Hdb. destruct r as [thingDesc|e]; simpl; [|done].
  by rewrite lookup_insert_eq.
Qed.

Lemma removeThing_unfold i w r db' :
  db_removeThing i (database w) = (r, db') →
  removeThing i w
  = match r with
    | Rejected e => (set_database db' w, Rejected e)
    | Resolved _ =>
        match things w !! i with
        | None => (set_database db' w, Resolved tt)
        | Some thing =>
            (set_thingsOrder (filter (λ k, k ≠ i) (thingsOrder w))
               (set_things (delete i (things w))
                  (set_released (thing :: released w) (set_database db' w))),
             Resolved tt)
        end
    end.
Proof.
  intros Hdb. unfold removeThing, then_, Database_removeThing.
  rewrite Hdb. destruct r as [[]|e]; simpl; [|done].
  by destruct (things w !! i).
Qed.

(** C7: removeThing deletes from the store first.  When that rejects,
    removeThing rejects with the same value, the map is as before and no
    Thing is released.  When it resolves and the map has the id, that
    Thing's remove() is called and its entry deleted; when the map has no
    such id, nothing else happens and removeThing resolves.  After a
    removeThing that resolved, a second one resolves too whenever the store
    delete resolves, and changes nothing but the store. *)
Theorem removeThing_semantics i w r db' :
  db_removeThing i (database w) = (r, db') →
  database (removeThing i w).1 = db'
  ∧ match r with
    | Rejected e =>
        (removeThing i w).2 = Rejected e
        ∧ things (removeThing i w).1 = things w
        ∧ released (removeThing i w).1 = released w
    | Resolved _ =>
        (removeThing i w).2 = Resolved tt
        ∧ things (removeThing i w).1 !! i = None
        ∧ match things w !! i with
          | Some thing =>
              released (removeThing i w).1 = thing :: released w
              ∧ things (removeThing i w).1 = delete i (things w)
          | None =>
              released (removeThing i w).1 = released w
              ∧ things (removeThing i w).1 = things w
          end
        ∧ ∀ u db'',
            db_removeThing i db' = (Resolved u, db'') →
            removeThing i (removeThing i w).1
            = (set_database db'' (removeThing i w).1, Resolved tt)
    end.
Proof.
  intros Hdb. rewrite (removeThing_unfold _ _ _ _ Hdb).
  destruct r as [[]|e]; simpl; [|done].
  destruct (things w !! i) as [thing|] eqn:Hi; simpl.
  - split; [done|]. split; [done|]. split; [by rewrite lookup_delete_eq|].
    split; [done|]. intros [] db'' Hdb2.
    rewrite (removeThing_unfold i _ (Resolved tt) db''); [|done].
    simpl. by rewrite lookup_delete_eq.
  - split; [done|]. split; [done|]. split; [done|]. split; [done|].
    intros [] db'' Hdb2.
    rewrite (removeThing_unfold i _ (Resolved tt) db''); [|done].
    simpl. by rewrite Hi.
Qed.

(** ** Broadcast to the websockets *)

Lemma sendEach_all payload (sockets : list WebSocket) net :
  (∀ s, s ∈ sockets → failing net !! s = None) →
  sendEach payload sockets net
  = (mkNetwork (delivered net ++ ((λ s, (s, payload)) <$> sockets))
               (failing net),
     Resolved tt).
Proof.
  revert net. induction sockets as [|s rest IH]; intros net Hok; simpl.
  { destruct net. simpl. by rewrite app_nil_r. }
  unfold ws_send. rewrite Hok; [|by left].
  rewrite IH; simpl.
  - by rewrite <- app_assoc.
  - intros x Hx. apply Hok. by right.
Qed.



(** ** Registration and the close handler *)

Lemma indexOf_absent x (l : list WebSocket) : x ∉ l → indexOf x l = (-1)%Z.
Proof.
  induction l as [|y l IH]; [done|]. intros Hx. simpl.
  rewrite decide_False; [|by intros ->; apply Hx; left].
  rewrite IH; [done|]. intros Hl. apply Hx. by right.
Qed.

Lemma indexOf_present x (pre post : list WebSocket) :
  x ∉ pre → indexOf x (pre ++ x :: post) = Z.of_nat (length pre).
Proof.
  induction pre as [|y pre IH]; intros Hx; simpl.
  { by rewrite decide_True. }
  rewrite decide_False; [|by intros ->; apply Hx; left].
  rewrite IH; [|by intros Hl; apply Hx; right].
  destruct (Z.ltb_spec (Z.of_nat (length pre)) 0); lia.
Qed.

Lemma splice_one_at {A} (pre post : list A) x :
  splice (Z.of_nat (length pre)) 1 (pre ++ x :: post) = pre ++ post.
Proof.
  unfold splice. rewrite length_app. simpl.
  destruct (Z.ltb_spec (Z.of_nat (length pre)) 0) as [?|_]; [lia|].
  rewrite Z.min_l by lia. rewrite Nat2Z.id.
  rewrite take_app_length.
  replace (Z.to_nat _) with (length pre + 1) by lia.
  rewrite drop_app_add. done.
Qed.

Lemma splice_last {A} (l : list A) x : splice (-1) 1 (l ++ [x]) = l.
Proof.
  unfold splice. rewrite length_app. simpl.
  replace (Z.max _ 0) with (Z.of_nat (length l)) by lia.
  rewrite Nat2Z.id, take_app_length.
  replace (Z.to_nat _) with (length l + 1) by lia.
  rewrite drop_app_add. simpl. by rewrite app_nil_r.
Qed.

(** The handler on a websocket that is in the list: its first occurrence
    goes, every other entry stays. *)
Lemma onClose_present websocket w pre post :
  websockets w = pre ++ websocket :: post →
  websocket ∉ pre →
  websockets (onClose websocket w) = pre ++ post.
Proof.
  intros Hl Hpre. unfold onClose. simpl. rewrite Hl.
  rewrite indexOf_present by done. apply splice_one_at.
Qed.

(** The handler on a websocket that is not in the list: [indexOf] gives -1
    and [splice(-1, 1)] takes the last entry. *)
Lemma onClose_absent websocket w l last :
  websockets w = l ++ [last] →
  websocket ∉ websockets w →
  websockets (onClose websocket w) = l.
Proof.
  intros Hl Hnot. unfold onClose. simpl.
  rewrite indexOf_absent by done. rewrite Hl. apply splice_last.
Qed.

(** C10: after clearState no websocket is registered and the map is empty;
    a handleNewThing that follows sends nothing, whatever was registered
    before. *)
Theorem clearState_drops_websockets newThing w :
  websockets (clearState w) = []
  ∧ things (clearState w) = ∅
  ∧ (∀ socket, socket ∈ websockets w → socket ∉ websockets (clearState w))
  ∧ (handleNewThing JSON_stringify newThing (clearState w)).2 = Resolved tt
  ∧ delivered (network (handleNewThing JSON_stringify newThing (clearState w)).1)
    = delivered (network w).
Proof.
  split; [done|]. split; [done|]. split; [|done].
  intros socket _. simpl. apply not_elem_of_nil.
Qed.

End Facts.

(** ** On the store of section 6 *)

Section StoreFacts.

Context {Thing : Type} `{ThingClass Thing}.

Implicit Types w : World Thing Store.

Lemma loadThings_dom (records : list Description) :
  dom (loadThings (Thing:=Thing) records) = list_to_set (id <$> records).
Proof.
  induction records as [|r records IH] using rev_ind; [apply dom_empty_L|].
  rewrite loadThings_snoc, dom_insert_L, IH, fmap_app, list_to_set_app_L.
  simpl. rewrite union_empty_r_L. apply union_comm_L.
Qed.

(** A load from a working store leaves a map with the ids of the store. *)
Lemma getThings_load_mirrors w :
  size (things w) = 0 →
  fault (database w) = None →
  (getThings w).2 = Resolved (things (getThings w).1)
  ∧ mirrors (getThings w).1.
Proof.
  intros Hcold Hok.
  rewrite (getThings_cold w
             (Resolved (map (λ row, mkDescription row.1 (href row.2)
                                      (properties row.2) (body row.2))
                            (rows (database w))))
             (database w) Hcold).
  2: { simpl. unfold store_listAll. by rewrite Hok. }
  unfold mirrors. simpl. split; [done|].
  rewrite loadThings_dom. f_equal.
  rewrite <- list_fmap_compose. by apply list_fmap_ext.
Qed.

(** On a working store without records every call of getThings finds the map
    empty and queries the store. *)
Lemma getThings_times_no_records (N : nat) w :
  things w = ∅ →
  database w = mkStore [] None →
  queries (getThings_times N w).1 = queries w + N.
Proof.
  revert w. induction N as [|N IH]; intros w Hcold Hdb; simpl; [lia|].
  rewrite (getThings_cold w (Resolved []) (mkStore [] None)).
  - simpl. unfold getThings_then.
    specialize (IH (set_thingsOrder (loadOrder [])
                      (set_things (loadThings [])
                         (set_queries (S (queries w))
                            (set_database (mkStore [] None) w))))).
    destruct (getThings_times N _) as [w2 rs]. simpl in *.
    rewrite IH by done. lia.
  - by rewrite Hcold.
  - by rewrite Hdb.
Qed.

End StoreFacts.

(** ** Instances on the sample data *)

(** C1, witness: three calls on a store holding the lamp. *)
Lemma getThings_times_one_query_witness :
  queries (getThings_times 3 home).1 = queries home + 1
  ∧ (getThings_times 3 home).2 = replicate 3 (Resolved (loadThings [lamp])).
Proof.
  apply (getThings_times_one_query 3 home [lamp] (mkStore [("lamp", lamp)] None)).
  - lia.
  - reflexivity.
  - reflexivity.
  - discriminate.
Defined.

(** C1, counterexample: on a store without records the map stays empty, and
    the second call of getThings queries the store again. *)
Lemma getThings_twice_empty_store :
  queries emptyHome = 0 ∧ queries (getThings_times 2 emptyHome).1 = 2.
Proof. split; reflexivity. Qed.

(** C2, at the failing input: the store holds the lamp and nothing is loaded
    yet; createThing of the plug resolves, and leaves a map that getThings
    returns without a query although the lamp, which the store holds, is
    not in it. *)
Theorem createThing_on_empty_map_hides_store :
  (createThing "plug" plug home).2 = Resolved plug
  ∧ (rows (database (createThing "plug" plug home).1)).*1 = ["lamp"; "plug"]
  ∧ warm (createThing "plug" plug home).1
  ∧ getThings (createThing "plug" plug home).1
    = ((createThing "plug" plug home).1,
       Resolved (things (createThing "plug" plug home).1))
  ∧ things (createThing "plug" plug home).1 !! "lamp" = None
  ∧ ¬ mirrors (createThing "plug" plug home).1.
Proof.
  split; [reflexivity|]. split; [reflexivity|].
  split; [vm_compute; lia|]. split; [reflexivity|]. split; [reflexivity|].
  intros Hm.
  assert ("lamp" ∈ dom (things (createThing "plug" plug home).1)) as Hin.
  { rewrite Hm. vm_compute. set_solver. }
  apply elem_of_dom in Hin as [t Ht]. vm_compute in Ht. discriminate.
Qed.


(** The witness evaluated: only the plug is new; it comes back addressed and
    its power object has its href; the lamp's power object is as it was. *)
Example getNewThingsInPlace_home :
  (getNewThingsInPlace "/things" "/properties" [lampDevice; plugDevice]
                       powerObjects home).2
  = Resolved
      ([lampDevice;
        mkDevice "plug" (Some "/things/plug") (Some [("power", 1)])
                 "smart plug"],
       {[ 0 := mkProperty None "watts";
          1 := mkProperty (Some "/things/plug/properties/power") "watts" ]},
       [mkDevice "plug" (Some "/things/plug") (Some [("power", 1)])
                 "smart plug"]).
Proof. reflexivity. Qed.


(** The example of the spec, evaluated: only the plug is new, and it comes
    back addressed; the connected lamp keeps its missing href. *)
Example getNewThings_home :
  (getNewThings "/things" "/properties" home).2
  = Resolved
      [mkDescription "plug" (Some "/things/plug")
         (Some {[ "power" := mkProperty (Some "/things/plug/properties/power")
                                        "watts" ]})
         "smart plug"]
  ∧ href <$> connected (getNewThings "/things" "/properties" home).1
    = [None; Some "/things/plug"].
Proof. split; reflexivity. Qed.

(** C4, witness: the plug is not stored. *)
Lemma getThing_absent_witness :
  getThing "plug" home
  = ((getThings home).1,
     Rejected (mkJsError "Error" "Unable to find thing with id: plug"))
  ∧ getThingDescription "plug" home
    = ((getThings home).1,
       Rejected (mkJsError "Error" "Unable to find thing with id: plug")).
Proof.
  apply (getThing_absent "plug" home (getThings home).1 (loadThings [lamp])).
  - reflexivity.
  - reflexivity.
Defined.

(** C4, counterexample: getThing of an id that is not stored rejects with a
    plain Error object, and a store whose query rejects with such an object
    gives getThing and getThingDescription the very same outcome although
    the id is stored: the rejection does not tell the two apart. *)
Lemma getThing_absent_like_store_failure :
  (getThing "plug" home).2
  = Rejected (mkJsError "Error" "Unable to find thing with id: plug")
  ∧ (getThing "plug" (offline (Error "Unable to find thing with id: plug"))).2
    = (getThing "plug" home).2
  ∧ (getThingDescription "plug"
       (offline (Error "Unable to find thing with id: plug"))).2
    = (getThingDescription "plug" home).2.
Proof. repeat split; reflexivity. Qed.



(** C6, witness: the store takes the plug; the store refuses a second
    lamp. *)
Lemma createThing_atomic_witness :
  (database (createThing "plug" plug home).1
   = mkStore [("lamp", lamp); ("plug", plug)] None
   ∧ (createThing "plug" plug home).2 = Resolved plug
   ∧ things (createThing "plug" plug home).1
     = <[ "plug" := mkSimpleThing "plug" plug ]> (things home)
   ∧ things (createThing "plug" plug home).1 !! "plug"
     = Some (mkSimpleThing "plug" plug))
  ∧ (database (createThing "lamp" lamp home).1 = database home
     ∧ (createThing "lamp" lamp home).2 = Rejected (mkJsError "Conflict" "lamp")
     ∧ things (createThing "lamp" lamp home).1 = things home).
Proof.
  split.
  - exact (createThing_atomic "plug" plug home (Resolved plug)
             (mkStore [("lamp", lamp); ("plug", plug)] None) eq_refl).
  - exact (createThing_atomic "lamp" lamp home
             (Rejected (mkJsError "Conflict" "lamp")) (database home) eq_refl).
Defined.

(** C7, witness: the lamp is loaded, then removed. *)
Lemma removeThing_semantics_witness :
  database (removeThing "lamp" (getThings home).1).1 = mkStore [] None
  ∧ (removeThing "lamp" (getThings home).1).2 = Resolved tt
  ∧ things (removeThing "lamp" (getThings home).1).1 !! "lamp" = None
  ∧ (released (removeThing "lamp" (getThings home).1).1
     = mkSimpleThing "lamp" lamp :: released (getThings home).1
     ∧ things (removeThing "lamp" (getThings home).1).1
       = delete "lamp" (things (getThings home).1))
  ∧ ∀ u db'',
      db_removeThing "lamp" (mkStore [] None) = (Resolved u, db'') →
      removeThing "lamp" (removeThing "lamp" (getThings home).1).1
      = (set_database db'' (removeThing "lamp" (getThings home).1).1,
         Resolved tt).
Proof.
  exact (removeThing_semantics "lamp" (getThings home).1 (Resolved tt)
           (mkStore [] None) eq_refl).
Defined.

(** C8, at the failing input: websocket 1 registers, clearState runs,
    websocket 2 registers, then websocket 1 closes.  Its handler finds
    index -1 and removes websocket 2, which is open. *)
Theorem close_after_clearState_removes_other :
  websockets (registerWebsocket 2 (clearState (registerWebsocket 1 home)))
  = [2]
  ∧ indexOf 1 (websockets
                 (registerWebsocket 2 (clearState (registerWebsocket 1 home))))
    = (-1)%Z
  ∧ websockets
      (emitClose 1
         (registerWebsocket 2 (clearState (registerWebsocket 1 home))))
    = [].
Proof. repeat split; reflexivity. Qed.



(** * Further properties of the operations *)

Section Coverage.

Context {Thing DB : Type} `{ThingClass Thing} `{DatabaseClass DB}.
Variables THINGS_PATH PROPERTIES_PATH : string.
Variable JSON_stringify : Description → string.

Implicit Types w : World Thing DB.

(** ** Loading *)

(** X1: the map a load builds has, under each id, the Thing constructed from
    the last record with that id; an id without record has no entry. *)
Theorem loadThings_last_record_wins (records : list Description) (i : string) :
  loadThings (Thing:=Thing) records !! i
  = (λ r, new_Thing (id r) r) <$> last (filter (λ r, id r = i) records).
Proof.
  induction records as [|r records IH] using rev_ind; [done|].
  rewrite loadThings_snoc, filter_app.
  destruct (decide (id r = i)) as [<-|Hne].
  - rewrite lookup_insert_eq, filter_cons_True, filter_nil by done.
    by rewrite last_snoc.
  - rewrite lookup_insert_ne, filter_cons_False, filter_nil by done.
    by rewrite app_nil_r.
Qed.

Lemma getThings_cold_queries w :
  size (things w) = 0 → queries (getThings w).1 = S (queries w).
Proof.
  intros Hcold.
  destruct (db_getThings (database w)) as [reply db'] eqn:Hdb.
  rewrite (getThings_cold w reply db' Hcold Hdb).
  by destruct reply.
Qed.

(** X2: a load that the store rejects is not remembered.  getThings rejects
    with the store's value and the map stays empty, so the next getThings
    queries the store again. *)
Theorem getThings_rejected_load_retries w e db' :
  size (things w) = 0 →
  db_getThings (database w) = (Rejected e, db') →
  (getThings w).2 = Rejected e
  ∧ things (getThings w).1 = things w
  ∧ queries (getThings w).1 = S (queries w)
  ∧ queries (getThings (getThings w).1).1 = S (S (queries w)).
Proof.
  intros Hcold Hdb.
  assert (getThings w
          = (set_queries (S (queries w)) (set_database db' w), Rejected e))
    as Hget by apply (getThings_cold w _ _ Hcold Hdb).
  rewrite Hget. simpl. split; [done|]. split; [done|]. split; [done|].
  by rewrite getThings_cold_queries.
Qed.

(** X3: clearState does not touch the store, and the getThings that follows
    it always queries the store, also when the map was loaded before; it
    settles as that query does. *)
Theorem clearState_forces_reload w reply db' :
  db_getThings (database w) = (reply, db') →
  database (clearState w) = database w
  ∧ queries (getThings (clearState w)).1 = S (queries w)
  ∧ (getThings (clearState w)).2
    = match reply with
      | Resolved records => Resolved (loadThings records)
      | Rejected e => Rejected e
      end.
Proof.
  intros Hdb. split; [done|].
  rewrite (getThings_cold (clearState w) reply db'); [|done|done].
  by destruct reply.
Qed.

(** ** createThing and removeThing with the readers *)

Lemma createThing_resolved i description w w1 thingDesc :
  createThing i description w = (w1, Resolved thingDesc) →
  things w1
  = <[thing_id (new_Thing i description) := new_Thing i description]> (things w)
  ∧ queries w1 = queries w
  ∧ released w1 = released w
  ∧ connected w1 = connected w.
Proof.
  unfold createThing, then_, Database_createThing.
  destruct (db_createThing _ _ _) as [[d|e] db']; [|done].
  by intros [= <- _].
Qed.

Lemma insert_size_pos (m : gmap string Thing) i t : 0 < size (<[i:=t]> m).
Proof.
  assert (size (<[i:=t]> m) ≠ 0); [|lia].
  apply map_size_non_empty_iff, insert_non_empty.
Qed.

(** X4: once createThing has resolved, getThing of the new Thing's id
    resolves with the Thing that was constructed and getThingDescription
    with its description, both without a store query and without changing
    anything. *)
Theorem createThing_then_getThing i description w w1 thingDesc :
  createThing i description w = (w1, Resolved thingDesc) →
  getThing (thing_id (new_Thing i description)) w1
  = (w1, Resolved (new_Thing i description))
  ∧ getThingDescription (thing_id (new_Thing i description)) w1
    = (w1, Resolved (getDescription (new_Thing i description))).
Proof.
  intros (Hthings & _)%createThing_resolved.
  apply (getThing_present _ w1 w1 (things w1)).
  - apply getThings_warm. rewrite Hthings. apply insert_size_pos.
  - rewrite Hthings. apply lookup_insert_eq.
Qed.

Lemma removeThing_resolved i w w1 :
  removeThing i w = (w1, Resolved tt) →
  things w1 = delete i (things w)
  ∧ queries w1 = queries w
  ∧ connected w1 = connected w.
Proof.
  destruct (db_removeThing i (database w)) as [r db'] eqn:Hdb.
  rewrite (removeThing_unfold i w r db' Hdb).
  destruct r as [[]|e]; [|done].
  destruct (things w !! i) as [thing|] eqn:Hi; intros [= <-]; simpl.
  - done.
  - by rewrite delete_id.
Qed.

(** X5: after a removeThing that resolved, getThing of that id does not
    resolve, provided a reload of the store does not list the id any more.
    It rejects with the not-found Error; only when the removal emptied the
    map and the reload is rejected does it reject with the store's value
    instead. *)
Theorem removeThing_then_getThing i w w1 reply db'' :
  removeThing i w = (w1, Resolved tt) →
  db_getThings (database w1) = (reply, db'') →
  (∀ records, reply = Resolved records → i ∉ id <$> records) →
  (getThing i w1).2
  = Rejected (mkJsError "Error" ("Unable to find thing with id: " +:+ i))
  ∨ (size (things w1) = 0
     ∧ ∃ e, reply = Rejected e ∧ (getThing i w1).2 = Rejected e).
Proof.
  intros (Hthings & _)%removeThing_resolved Hdb Hgone.
  destruct (decide (size (things w1) = 0)) as [Hcold|Hwarm].
  - pose proof (getThings_cold w1 reply db'' Hcold Hdb) as Hget.
    destruct reply as [records|e].
    + left. unfold getThing, then_. rewrite Hget. simpl.
      rewrite (not_elem_of_dom_1 (loadThings records) i); [done|].
      rewrite loadThings_dom. rewrite elem_of_list_to_set. by apply Hgone.
    + right. split; [done|]. exists e. split; [done|].
      unfold getThing, then_. by rewrite Hget.
  - left. unfold getThing, then_. rewrite getThings_warm by lia.
    by rewrite Hthings, lookup_delete_eq.
Qed.

Lemma getThings_frame w :
  connected (getThings w).1 = connected w
  ∧ websockets (getThings w).1 = websockets w
  ∧ network (getThings w).1 = network w
  ∧ released (getThings w).1 = released w.
Proof.
  unfold getThings, getThings_call, Database_getThings.
  case_bool_decide; [done|].
  destruct (db_getThings (database w)) as [[records|e] db']; done.
Qed.

(** X6: when the map is empty and the store rejects the query, getThing,
    getThingDescription, getThingDescriptions and getNewThings all reject
    with the store's value, and getNewThings leaves the connected devices as
    they were. *)
Theorem readers_reject_with_store_failure i w e db' :
  size (things w) = 0 →
  db_getThings (database w) = (Rejected e, db') →
  (getThing i w).2 = Rejected e
  ∧ (getThingDescription i w).2 = Rejected e
  ∧ (getThingDescriptions w).2 = Rejected e
  ∧ (getNewThings THINGS_PATH PROPERTIES_PATH w).2 = Rejected e
  ∧ connected (getNewThings THINGS_PATH PROPERTIES_PATH w).1 = connected w.
Proof.
  intros Hcold Hdb.
  pose proof (getThings_cold w _ _ Hcold Hdb) as Hget. simpl in Hget.
  unfold getThingDescription, getThing, getThingDescriptions, getNewThings,
    then_.
  rewrite Hget. done.
Qed.

Lemma loadOrder_snoc (records : list Description) (r : Description) :
  loadOrder (records ++ [r])
  = if bool_decide (id r ∈ loadOrder records) then loadOrder records
    else loadOrder records ++ [id r].
Proof. unfold loadOrder. by rewrite foldl_snoc. Qed.

Lemma loadOrder_ordered (records : list Description) :
  NoDup (loadOrder records)
  ∧ ∀ k, k ∈ loadOrder records
         ↔ is_Some (loadThings (Thing:=Thing) records !! k).
Proof.
  induction records as [|r records [IHnd IHin]] using rev_ind.
  { split; [constructor|]. intros k. split.
    - by intros ?%elem_of_nil.
    - intros [? Hk]. unfold loadThings in Hk. simpl in Hk.
      by rewrite lookup_empty in Hk. }
  rewrite loadOrder_snoc, loadThings_snoc. case_bool_decide as Hr.
  - split; [done|]. intros k. rewrite IHin.
    destruct (decide (id r = k)) as [<-|Hne].
    + rewrite lookup_insert_eq. split; [by eexists|]. intros _. by apply IHin.
    + by rewrite lookup_insert_ne.
  - split.
    + apply NoDup_app. split; [done|]. split; [|apply NoDup_singleton].
      intros k Hk ->%list_elem_of_singleton. done.
    + intros k. rewrite elem_of_app, list_elem_of_singleton, IHin.
      destruct (decide (id r = k)) as [<-|Hne].
      * rewrite lookup_insert_eq. split; [by eexists|]. by right.
      * rewrite lookup_insert_ne by done. split; [|by left].
        intros [?|?]; [done|congruence].
Qed.



(** The Map order is an iteration order at startup and stays one under every
    operation that writes the map. *)
Lemma ordered_kept i description w :
  ordered w →
  ordered (getThings w).1
  ∧ ordered (createThing i description w).1
  ∧ ordered (removeThing i w).1
  ∧ ordered (clearState w).
Proof.
  intros [Hnd Hkeys]. split; [|split; [|split]].
  - destruct (decide (size (things w) = 0)) as [Hcold|Hwarm].
    + destruct (db_getThings (database w)) as [reply db'] eqn:Hdb.
      rewrite (getThings_cold w reply db' Hcold Hdb).
      destruct reply as [records|e]; simpl; [apply loadOrder_ordered|done].
    + by rewrite getThings_warm by lia.
  - unfold createThing, then_, Database_createThing.
    destruct (db_createThing _ _ _) as [[thingDesc|e] db']; simpl; [|done].
    unfold ordered. simpl.
    set (k := thing_id (new_Thing i description)).
    case_bool_decide as Hk.
    + split; [done|]. intros k'. rewrite Hkeys.
      destruct (decide (k = k')) as [<-|Hne].
      * rewrite lookup_insert_eq. split; [by eexists|done].
      * by rewrite lookup_insert_ne.
    + split.
      * apply NoDup_app. split; [done|]. split; [|apply NoDup_singleton].
        intros k' Hk' ->%list_elem_of_singleton. by apply Hk, Hkeys.
      * intros k'. rewrite elem_of_app, list_elem_of_singleton, Hkeys.
        destruct (decide (k = k')) as [<-|Hne].
        -- rewrite lookup_insert_eq. split; [by eexists|]. by right.
        -- rewrite lookup_insert_ne by done. split; [|by left].
           intros [?|?]; [done|congruence].
  - destruct (db_removeThing i (database w)) as [r db'] eqn:Hdb.
    rewrite (removeThing_unfold i w r db' Hdb).
    destruct r as [[]|e]; [|done].
    destruct (things w !! i) as [thing|] eqn:Hi; [|done].
    unfold ordered. simpl. split; [by apply NoDup_filter|].
    intros k. rewrite list_elem_of_filter, Hkeys.
    destruct (decide (i = k)) as [<-|Hne].
    + rewrite lookup_delete_eq. split; [by intros [? _]|by intros [? ?]].
    + rewrite lookup_delete_ne by done. split; [by intros [_ ?]|].
      intros ?. split; [congruence|done].
  - split; [constructor|]. intros k. simpl. split.
    + by intros ?%elem_of_nil.
    + intros [? Hk]. by rewrite lookup_empty in Hk.
Qed.


(** X8: on a map that has an entry, the readers make no store query and
    change no state: getThings, getThing, getThingDescription and
    getThingDescriptions leave everything as it was, and getNewThings leaves
    the map, the store and the query count as they were. *)
Theorem warm_reads_change_nothing i w :
  0 < size (things w) →
  (getThings w).1 = w
  ∧ (getThing i w).1 = w
  ∧ (getThingDescription i w).1 = w
  ∧ (getThingDescriptions w).1 = w
  ∧ things (getNewThings THINGS_PATH PROPERTIES_PATH w).1 = things w
  ∧ database (getNewThings THINGS_PATH PROPERTIES_PATH w).1 = database w
  ∧ queries (getNewThings THINGS_PATH PROPERTIES_PATH w).1 = queries w.
Proof.
  intros Hwarm.
  unfold getThingDescription, getThing, getThingDescriptions, getNewThings,
    then_.
  rewrite (getThings_warm w Hwarm). simpl.
  split; [done|]. split; [by destruct (things w !! i)|].
  split; [by destruct (things w !! i)|]. split; [done|].
  by destruct (reconcile _ _ _ _).
Qed.

(** X9: removeThing of the only entry of the map leaves the map empty, so
    the next getThings queries the store again. *)
Theorem removeThing_last_entry_reloads i w thing u db' :
  things w = {[ i := thing ]} →
  db_removeThing i (database w) = (Resolved u, db') →
  things (removeThing i w).1 = ∅
  ∧ released (removeThing i w).1 = thing :: released w
  ∧ queries (getThings (removeThing i w).1).1 = S (queries w).
Proof.
  intros Hthings Hdb.
  assert (removeThing i w
          = (set_thingsOrder (filter (λ k, k ≠ i) (thingsOrder w))
               (set_things ∅ (set_released (thing :: released w)
                                (set_database db' w))), Resolved tt)) as Hrm.
  { rewrite (removeThing_unfold i w (Resolved u) db' Hdb).
    by rewrite Hthings, lookup_singleton_eq, delete_singleton_eq. }
  rewrite Hrm. simpl. split; [done|]. split; [done|].
  by rewrite getThings_cold_queries.
Qed.

(** X10: createThing with an id that the map already has replaces that
    entry when it resolves: the map has as many entries as before, every
    other entry is as before, and remove() is not called on the Thing that
    was replaced. *)
Theorem createThing_replaces_entry i description w w1 thingDesc old :
  createThing i description w = (w1, Resolved thingDesc) →
  things w !! thing_id (new_Thing i description) = Some old →
  size (things w1) = size (things w)
  ∧ things w1 !! thing_id (new_Thing i description)
    = Some (new_Thing i description)
  ∧ released w1 = released w
  ∧ ∀ j, j ≠ thing_id (new_Thing i description) →
         things w1 !! j = things w !! j.
Proof.
  intros (Hthings & _ & Hreleased & _)%createThing_resolved Hold.
  rewrite Hthings. split; [by eapply map_size_insert_Some|].
  split; [apply lookup_insert_eq|]. split; [done|].
  intros j Hj. by apply lookup_insert_ne.
Qed.

(** ** getNewThings *)

Lemma sameExceptHref_refl d : sameExceptHref d d.
Proof.
  split; [done|]. split; [done|].
  destruct (properties d) as [props|]; constructor.
  intros name. destruct (props !! name); by constructor.
Qed.

Lemma sameExceptHref_address d :
  sameExceptHref d (address THINGS_PATH PROPERTIES_PATH d).
Proof.
  split; [done|]. split; [done|]. simpl.
  destruct (properties d) as [props|]; constructor.
  intros name. rewrite map_lookup_imap.
  destruct (props !! name); by constructor.
Qed.

(** X11: getNewThings writes href fields only.  Once getThings has resolved,
    it leaves the map, the store, the websockets and the released Things as
    getThings left them, and every connected device keeps its place, its id,
    its other fields, its property names and the other fields of each
    property. *)
Theorem getNewThings_writes_href_only w w1 (storedThings : gmap string Thing) :
  getThings w = (w1, Resolved storedThings) →
  things (getNewThings THINGS_PATH PROPERTIES_PATH w).1 = things w1
  ∧ database (getNewThings THINGS_PATH PROPERTIES_PATH w).1 = database w1
  ∧ queries (getNewThings THINGS_PATH PROPERTIES_PATH w).1 = queries w1
  ∧ websockets (getNewThings THINGS_PATH PROPERTIES_PATH w).1 = websockets w1
  ∧ released (getNewThings THINGS_PATH PROPERTIES_PATH w).1 = released w1
  ∧ Forall2 sameExceptHref
      (connected w1)
      (connected (getNewThings THINGS_PATH PROPERTIES_PATH w).1).
Proof.
  intros Hget. unfold getNewThings, then_. rewrite Hget.
  pose proof (reconcile_connected THINGS_PATH PROPERTIES_PATH storedThings
                (connected w1)) as Hcon.
  destruct (reconcile _ _ storedThings (connected w1))
    as [connectedThings' newThings].
  simpl in *. subst. repeat (split; [done|]).
  apply Forall2_fmap_r, Forall_Forall2_diag, Forall_forall.
  intros d _. simpl. case_bool_decide.
  - apply sameExceptHref_refl.
  - apply sameExceptHref_address.
Qed.

Lemma address_idemp d :
  address THINGS_PATH PROPERTIES_PATH (address THINGS_PATH PROPERTIES_PATH d)
  = address THINGS_PATH PROPERTIES_PATH d.
Proof.
  unfold address. simpl. f_equal.
  destruct (properties d) as [props|]; [|done]. f_equal.
  apply map_eq. intros name. rewrite !map_lookup_imap.
  by destruct (props !! name).
Qed.

Lemma reconcile_idemp (storedThings : gmap string Thing) connectedThings :
  reconcile THINGS_PATH PROPERTIES_PATH storedThings
    (reconcile THINGS_PATH PROPERTIES_PATH storedThings connectedThings).1
  = reconcile THINGS_PATH PROPERTIES_PATH storedThings connectedThings.
Proof.
  induction connectedThings as [|d rest IH]; [done|]. simpl.
  destruct (reconcile _ _ storedThings rest) as [rest' newThings].
  simpl in IH. case_bool_decide as Hhas; simpl; rewrite IH.
  - by rewrite bool_decide_eq_true_2.
  - rewrite bool_decide_eq_false_2 by done. by rewrite address_idemp.
Qed.

(** X12: on a map that has an entry, asking for the new things a second
    time gives the same list and leaves the state of the first call: the
    devices addressed by the first call are addressed the same way again. *)
Theorem getNewThings_twice w :
  0 < size (things w) →
  getNewThings THINGS_PATH PROPERTIES_PATH
    (getNewThings THINGS_PATH PROPERTIES_PATH w).1
  = getNewThings THINGS_PATH PROPERTIES_PATH w.
Proof.
  intros Hwarm. unfold getNewThings at 2 3. unfold then_.
  rewrite (getThings_warm w Hwarm).
  pose proof (reconcile_idemp (things w) (connected w)) as Hidem.
  destruct (reconcile _ _ (things w) (connected w))
    as [connectedThings' newThings] eqn:Hrec.
  simpl in *. unfold getNewThings, then_.
  rewrite getThings_warm by done. simpl. by rewrite Hidem.
Qed.

(** X13: once createThing has resolved, getNewThings no longer reports a
    connected device with the id of the new Thing, and answers from the map
    without a store query. *)
Theorem createThing_then_getNewThings i description w w1 thingDesc :
  createThing i description w = (w1, Resolved thingDesc) →
  ∃ newThings,
    (getNewThings THINGS_PATH PROPERTIES_PATH w1).2 = Resolved newThings
    ∧ queries (getNewThings THINGS_PATH PROPERTIES_PATH w1).1 = queries w1
    ∧ Forall (λ d, id d ≠ thing_id (new_Thing i description)) newThings.
Proof.
  intros (Hthings & _)%createThing_resolved.
  assert (0 < size (things w1)) as Hwarm.
  { rewrite Hthings. apply insert_size_pos. }
  unfold getNewThings, then_. rewrite (getThings_warm w1 Hwarm).
  pose proof (reconcile_newThings THINGS_PATH PROPERTIES_PATH (things w1)
                (connected w1)) as Hnew.
  destruct (reconcile _ _ (things w1) (connected w1))
    as [connectedThings' newThings].
  simpl in *. subst newThings. eexists. split; [done|]. split; [done|].
  apply Forall_fmap, Forall_forall. intros d [Hnone _]%list_elem_of_filter.
  simpl. intros Hid. rewrite Hid, Hthings, lookup_insert_eq in Hnone. done.
Qed.

(** ** Websockets *)

Lemma sendEach_prefix payload (sockets : list WebSocket) net :
  ∃ pre,
    pre `prefix_of` sockets
    ∧ (sendEach payload sockets net).1
      = mkNetwork (delivered net ++ ((λ s, (s, payload)) <$> pre))
                  (failing net)
    ∧ ((sendEach payload sockets net).2 = Resolved tt → pre = sockets).
Proof.
  revert net. induction sockets as [|s rest IH]; intros net; simpl.
  { exists []. split; [done|]. split; [|done].
    destruct net. simpl. by rewrite app_nil_r. }
  unfold ws_send. destruct (failing net !! s) as [e|] eqn:Hs.
  - exists []. split; [apply prefix_nil|]. split; [|done].
    destruct net. simpl. by rewrite app_nil_r.
  - destruct (IH (mkNetwork (delivered net ++ [(s, payload)]) (failing net)))
      as (pre & Hpre & Hnet & Hall).
    exists (s :: pre). split; [by apply prefix_cons|].
    split; [|by intros ->%Hall].
    rewrite Hnet. simpl. by rewrite <- app_assoc.
Qed.


Lemma filter_eq_notin (x : WebSocket) (l : list WebSocket) :
  x ∉ l → filter (λ s, s = x) l = [].
Proof.
  induction l as [|y l IH]; [done|]. intros Hx.
  rewrite filter_cons_False; [|by intros ->; apply Hx; left].
  apply IH. intros Hl. apply Hx. by right.
Qed.

Lemma filter_ne_notin (x : WebSocket) (l : list WebSocket) :
  x ∉ l → filter (λ s, s ≠ x) l = l.
Proof.
  induction l as [|y l IH]; [done|]. intros Hx.
  rewrite filter_cons_True; [|by intros ->; apply Hx; left].
  rewrite IH; [done|]. intros Hl. apply Hx. by right.
Qed.

Lemma closeHandlers_run (websocket : WebSocket) (listeners : list WebSocket) w :
  length (filter (λ s, s = websocket) listeners)
  = length (filter (λ s, s = websocket) (websockets w)) →
  websockets
    (foldl (λ w' listener,
              if decide (listener = websocket) then onClose websocket w'
              else w')
           w listeners)
  = filter (λ s, s ≠ websocket) (websockets w).
Proof.
  revert w. induction listeners as [|y listeners IH]; intros w Hcount; simpl.
  - destruct (decide (websocket ∈ websockets w)) as [Hin|Hnotin].
    + apply list_elem_of_split_l in Hin as (l1 & l2 & Hl & _).
      rewrite Hl, filter_app, filter_cons_True, length_app in Hcount by done.
      simpl in Hcount. lia.
    + by rewrite filter_ne_notin.
  - destruct (decide (y = websocket)) as [->|Hne].
    + rewrite filter_cons_True in Hcount by done. simpl in Hcount.
      destruct (decide (websocket ∈ websockets w)) as [Hin|Hnotin].
      * apply list_elem_of_split_l in Hin as (l1 & l2 & Hl & Hl1).
        rewrite IH; rewrite (onClose_present websocket w l1 l2 Hl Hl1).
        -- rewrite Hl, !filter_app. by rewrite filter_cons_False by tauto.
        -- rewrite Hl, !filter_app, filter_cons_True, !length_app in Hcount
             by done.
           rewrite filter_app, length_app. simpl in Hcount. lia.
      * rewrite (filter_eq_notin _ _ Hnotin) in Hcount. done.
    + rewrite filter_cons_False in Hcount by done. by apply IH.
Qed.

Lemma closeHandlers_frame (websocket : WebSocket) (listeners : list WebSocket) w :
  let w' := foldl (λ w' listener,
                     if decide (listener = websocket) then onClose websocket w'
                     else w')
                  w listeners in
  network w' = network w
  ∧ closeListeners w' = closeListeners w
  ∧ things w' = things w
  ∧ database w' = database w.
Proof.
  revert w. induction listeners as [|y listeners IH]; intros w; simpl; [done|].
  destruct (decide (y = websocket)); [|apply IH].
  destruct (IH (onClose websocket w)) as (-> & -> & -> & ->). done.
Qed.

(** X15: a websocket with as many close handlers as it has entries in the
    list (it was registered that often since the list was last reset, and
    has not closed yet) closes: all its entries go, every other entry stays,
    in order, and a THING_ADDED that follows hands it nothing.  The map, the
    store and the installed handlers are as before. *)
Theorem close_removes_registered_websocket websocket thing w :
  length (filter (λ s, s = websocket) (closeListeners w))
  = length (filter (λ s, s = websocket) (websockets w)) →
  websockets (emitClose websocket w)
  = filter (λ s, s ≠ websocket) (websockets w)
  ∧ closeListeners (emitClose websocket w) = closeListeners w
  ∧ things (emitClose websocket w) = things w
  ∧ database (emitClose websocket w) = database w
  ∧ ∃ sent,
      delivered (network (onThingAdded JSON_stringify thing
                            (emitClose websocket w)).1)
      = delivered (network w) ++ sent
      ∧ websocket ∉ sent.*1.
Proof.
  intros Hcount.
  assert (websockets (emitClose websocket w)
          = filter (λ s, s ≠ websocket) (websockets w)) as Hws
    by apply (closeHandlers_run websocket (closeListeners w) w Hcount).
  assert (network (emitClose websocket w) = network w
          ∧ closeListeners (emitClose websocket w) = closeListeners w
          ∧ things (emitClose websocket w) = things w
          ∧ database (emitClose websocket w) = database w)
    as (Hnet & Hcl & Hth & Hdb)
    by apply (closeHandlers_frame websocket (closeListeners w) w).
  split; [done|]. split; [done|]. split; [done|]. split; [done|].
  set (w' := emitClose websocket w) in *.
  unfold onThingAdded, handleNewThing.
  destruct (sendEach_prefix (JSON_stringify thing) (websockets w') (network w'))
    as (pre & Hpre & Hsent & _).
  destruct (sendEach _ _ _) as [net' r]. simpl in *. subst net'. simpl.
  rewrite Hnet. eexists. split; [done|].
  rewrite <- list_fmap_compose. simpl. rewrite list_fmap_id.
  intros Hin. destruct Hpre as [rest Hrest].
  assert (websocket ∈ filter (λ s, s ≠ websocket) (websockets w)) as Hf.
  { rewrite <- Hws, Hrest. apply elem_of_app. by left. }
  apply list_elem_of_filter in Hf as [Hne _]. done.
Qed.

(** X16: after registerWebsocket, a THING_ADDED on which no send throws
    hands the serialized thing to every websocket registered before and then
    to the new one, which is last in the list. *)
Theorem registered_websocket_receives websocket thing w :
  (∀ s, s ∈ websockets w → failing (network w) !! s = None) →
  failing (network w) !! websocket = None →
  websockets (registerWebsocket websocket w) = websockets w ++ [websocket]
  ∧ (onThingAdded JSON_stringify thing (registerWebsocket websocket w)).2
    = Resolved tt
  ∧ delivered (network (onThingAdded JSON_stringify thing
                          (registerWebsocket websocket w)).1)
    = delivered (network w)
      ++ ((λ s, (s, JSON_stringify thing)) <$> websockets w)
      ++ [(websocket, JSON_stringify thing)].
Proof.
  intros Hok Hnew. split; [done|].
  unfold onThingAdded, handleNewThing. simpl.
  rewrite sendEach_all.
  - simpl. by rewrite fmap_app.
  - intros s [Hs|Hs%list_elem_of_singleton]%elem_of_app; [by apply Hok|].
    by subst.
Qed.

(** ** The map against a store that keeps a set of ids *)

(** X17: createThing keeps the ids of the map equal to the ids of the store.
    For any reading [storedIds] of the store under which a resolved create
    adds exactly the id it was given and a rejected one adds nothing, if the
    ids of the map are the stored ids before createThing they are so
    after it, whether it resolves or rejects. *)
Theorem createThing_keeps_mirror (storedIds : DB → gset string)
    i description w r db' :
  dom (things w) = storedIds (database w) →
  db_createThing (thing_id (new_Thing i description))
                 (getDescription (new_Thing i description)) (database w)
  = (r, db') →
  storedIds db'
  = match r with
    | Resolved _ => {[ thing_id (new_Thing i description) ]}
                    ∪ storedIds (database w)
    | Rejected _ => storedIds (database w)
    end →
  dom (things (createThing i description w).1)
  = storedIds (database (createThing i description w).1).
Proof.
  intros Hmirror Hdb Hids.
  unfold createThing, then_, Database_createThing. rewrite Hdb.
  destruct r as [thingDesc|e]; simpl.
  - by rewrite dom_insert_L, Hmirror, Hids.
  - by rewrite Hmirror, Hids.
Qed.

(** X18: removeThing keeps the ids of the map equal to the ids of the store.
    For any reading [storedIds] of the store under which a resolved delete
    takes exactly the id it was given away and a rejected one takes nothing,
    if the ids of the map are the stored ids before removeThing they are so
    after it, whether it resolves or rejects. *)
Theorem removeThing_keeps_mirror (storedIds : DB → gset string) i w r db' :
  dom (things w) = storedIds (database w) →
  db_removeThing i (database w) = (r, db') →
  storedIds db'
  = match r with
    | Resolved _ => storedIds (database w) ∖ {[ i ]}
    | Rejected _ => storedIds (database w)
    end →
  dom (things (removeThing i w).1) = storedIds (database (removeThing i w).1).
Proof.
  intros Hmirror Hdb Hids. rewrite (removeThing_unfold i w r db' Hdb).
  destruct r as [[]|e]; simpl; [|by rewrite Hmirror, Hids].
  destruct (things w !! i) as [thing|] eqn:Hi; simpl.
  - by rewrite dom_delete_L, Hmirror, Hids.
  - rewrite Hids, <- Hmirror.
    apply not_elem_of_dom in Hi. symmetry.
    apply difference_disjoint_L. by apply disjoint_singleton_r.
Qed.

(** X19: a load that resolves on an empty map leaves a map whose ids are
    exactly the ids of the records the store returned, with at most one
    entry per record. *)
Theorem getThings_load_ids w records db' :
  size (things w) = 0 →
  db_getThings (database w) = (Resolved records, db') →
  (getThings w).2 = Resolved (things (getThings w).1)
  ∧ dom (things (getThings w).1) = list_to_set (id <$> records)
  ∧ size (things (getThings w).1) ≤ length records.
Proof.
  intros Hcold Hdb. rewrite (getThings_cold w _ _ Hcold Hdb). simpl.
  split; [done|]. split; [apply loadThings_dom|].
  clear. induction records as [|r records IH] using rev_ind; [done|].
  rewrite loadThings_snoc, length_app. simpl.
  pose proof (map_size_insert (id r) (new_Thing (id r) r)
                (loadThings (Thing:=Thing) records)) as Hsize.
  destruct (loadThings records !! id r); unfold Datatypes.id in Hsize; lia.
Qed.

Lemma filter_eq_filter_ne (s x : WebSocket) (l : list WebSocket) :
  s ≠ x →
  filter (λ y, y = s) (filter (λ y, y ≠ x) l) = filter (λ y, y = s) l.
Proof.
  intros Hsx. induction l as [|y l IH]; [done|].
  destruct (decide (y = x)) as [->|Hyx].
  - rewrite (filter_cons_False (λ y, y ≠ x)) by tauto.
    rewrite (filter_cons_False (λ y, y = s)) by done. done.
  - rewrite (filter_cons_True (λ y, y ≠ x)) by done.
    destruct (decide (y = s)) as [->|Hys].
    + rewrite !(filter_cons_True (λ y, y = s)) by done. by rewrite IH.
    + rewrite !(filter_cons_False (λ y, y = s)) by done. done.
Qed.

(** X20: the match between close handlers and list entries is kept.
    registerWebsocket keeps it for every websocket, and the close of a
    websocket whose handlers match keeps it for every other websocket. *)
Theorem handlersMatch_kept (s x : WebSocket) w :
  handlersMatch s w →
  handlersMatch s (registerWebsocket x w)
  ∧ (s ≠ x → handlersMatch x w → handlersMatch s (emitClose x w)).
Proof.
  unfold handlersMatch. intros Hs. split.
  - simpl. rewrite !filter_app, !length_app. by rewrite Hs.
  - intros Hsx Hx.
    assert (websockets (emitClose x w) = filter (λ y, y ≠ x) (websockets w))
      as -> by apply (closeHandlers_run x (closeListeners w) w Hx).
    assert (closeListeners (emitClose x w) = closeListeners w) as ->
      by apply (closeHandlers_frame x (closeListeners w) w).
    by rewrite filter_eq_filter_ne.
Qed.

End Coverage.

(** ** Instances of the further properties on the sample data *)

(** X2, witness: a store that rejects every call. *)
Lemma getThings_rejected_load_retries_witness :
  (getThings (offline (Error "SQLITE_BUSY"))).2 = Rejected (Error "SQLITE_BUSY")
  ∧ things (getThings (offline (Error "SQLITE_BUSY"))).1
    = things (offline (Error "SQLITE_BUSY"))
  ∧ queries (getThings (offline (Error "SQLITE_BUSY"))).1 = 1
  ∧ queries (getThings (getThings (offline (Error "SQLITE_BUSY"))).1).1 = 2.
Proof.
  exact (getThings_rejected_load_retries (offline (Error "SQLITE_BUSY"))
           (Error "SQLITE_BUSY") (database (offline (Error "SQLITE_BUSY")))
           eq_refl eq_refl).
Defined.

(** X3, witness: the lamp is loaded, then the state is cleared. *)
Lemma clearState_forces_reload_witness :
  database (clearState (getThings home).1) = database (getThings home).1
  ∧ queries (getThings (clearState (getThings home).1)).1
    = S (queries (getThings home).1)
  ∧ (getThings (clearState (getThings home).1)).2
    = Resolved (loadThings [lamp]).
Proof.
  exact (clearState_forces_reload (getThings home).1 (Resolved [lamp])
           (mkStore [("lamp", lamp)] None) eq_refl).
Defined.

(** X4, witness: the plug is created on [home]. *)
Lemma createThing_then_getThing_witness :
  getThing "plug" (createThing "plug" plug home).1
  = ((createThing "plug" plug home).1, Resolved (mkSimpleThing "plug" plug))
  ∧ getThingDescription "plug" (createThing "plug" plug home).1
    = ((createThing "plug" plug home).1, Resolved plug).
Proof.
  exact (createThing_then_getThing "plug" plug home
           (createThing "plug" plug home).1 plug eq_refl).
Defined.

(** X5, witness: the lamp is loaded and removed; the store lists nothing
    afterwards. *)
Lemma removeThing_then_getThing_witness :
  (getThing "lamp" (removeThing "lamp" (getThings home).1).1).2
  = Rejected (mkJsError "Error" "Unable to find thing with id: lamp")
  ∨ (size (things (removeThing "lamp" (getThings home).1).1) = 0
     ∧ ∃ e, Resolved (@nil Description) = Rejected e
            ∧ (getThing "lamp" (removeThing "lamp" (getThings home).1).1).2
              = Rejected e).
Proof.
  apply (removeThing_then_getThing "lamp" (getThings home).1
           (removeThing "lamp" (getThings home).1).1
           (Resolved []) (mkStore [] None)).
  - reflexivity.
  - reflexivity.
  - intros records [= <-]. apply not_elem_of_nil.
Defined.

(** X6, witness: a store that rejects every call. *)
Lemma readers_reject_with_store_failure_witness :
  (getThing "plug" (offline (Error "SQLITE_BUSY"))).2
  = Rejected (Error "SQLITE_BUSY")
  ∧ (getThingDescription "plug" (offline (Error "SQLITE_BUSY"))).2
    = Rejected (Error "SQLITE_BUSY")
  ∧ (getThingDescriptions (offline (Error "SQLITE_BUSY"))).2
    = Rejected (Error "SQLITE_BUSY")
  ∧ (getNewThings "/things" "/properties" (offline (Error "SQLITE_BUSY"))).2
    = Rejected (Error "SQLITE_BUSY")
  ∧ connected (getNewThings "/things" "/properties"
                 (offline (Error "SQLITE_BUSY"))).1
    = connected (offline (Error "SQLITE_BUSY")).
Proof.
  exact (readers_reject_with_store_failure "/things" "/properties" "plug"
           (offline (Error "SQLITE_BUSY")) (Error "SQLITE_BUSY")
           (database (offline (Error "SQLITE_BUSY"))) eq_refl eq_refl).
Defined.


(** The descriptions come in the order of the store's records, not in the
    order of the ids. *)
Example getThingDescriptions_record_order :
  id <$> match (getThingDescriptions
                  (startup (mkStore [("plug", plug); ("lamp", lamp);
                                     ("fan", lamp)] None) [] quiet)).2 with
         | Resolved descriptions => descriptions
         | Rejected _ => []
         end
  = ["plug"; "lamp"; "fan"].
Proof. reflexivity. Qed.

(** X8, witness: the lamp is loaded. *)
Lemma warm_reads_change_nothing_witness :
  (getThings (getThings home).1).1 = (getThings home).1
  ∧ (getThing "plug" (getThings home).1).1 = (getThings home).1
  ∧ (getThingDescription "plug" (getThings home).1).1 = (getThings home).1
  ∧ (getThingDescriptions (getThings home).1).1 = (getThings home).1
  ∧ things (getNewThings "/things" "/properties" (getThings home).1).1
    = things (getThings home).1
  ∧ database (getNewThings "/things" "/properties" (getThings home).1).1
    = database (getThings home).1
  ∧ queries (getNewThings "/things" "/properties" (getThings home).1).1
    = queries (getThings home).1.
Proof.
  apply (warm_reads_change_nothing "/things" "/properties" "plug"
           (getThings home).1).
  vm_compute. lia.
Defined.

(** X9, witness: the lamp is the only loaded Thing and is removed. *)
Lemma removeThing_last_entry_reloads_witness :
  things (removeThing "lamp" (getThings home).1).1 = ∅
  ∧ released (removeThing "lamp" (getThings home).1).1
    = mkSimpleThing "lamp" lamp :: released (getThings home).1
  ∧ queries (getThings (removeThing "lamp" (getThings home).1).1).1
    = S (queries (getThings home).1).
Proof.
  exact (removeThing_last_entry_reloads "lamp" (getThings home).1
           (mkSimpleThing "lamp" lamp) tt (mkStore [] None) eq_refl eq_refl).
Defined.

(** X10, witness: the map holds a lamp that the store does not hold, so the
    store accepts a lamp. *)
Lemma createThing_replaces_entry_witness :
  size (things (createThing "lamp" plug
                  (set_things {[ "lamp" := mkSimpleThing "lamp" lamp ]}
                              emptyHome)).1)
  = size (things (set_things {[ "lamp" := mkSimpleThing "lamp" lamp ]}
                             emptyHome))
  ∧ things (createThing "lamp" plug
              (set_things {[ "lamp" := mkSimpleThing "lamp" lamp ]}
                          emptyHome)).1 !! "lamp"
    = Some (mkSimpleThing "lamp" plug)
  ∧ released (createThing "lamp" plug
                (set_things {[ "lamp" := mkSimpleThing "lamp" lamp ]}
                            emptyHome)).1
    = released (set_things {[ "lamp" := mkSimpleThing "lamp" lamp ]} emptyHome)
  ∧ ∀ j, j ≠ "lamp" →
         things (createThing "lamp" plug
                   (set_things {[ "lamp" := mkSimpleThing "lamp" lamp ]}
                               emptyHome)).1 !! j
         = things (set_things {[ "lamp" := mkSimpleThing "lamp" lamp ]}
                              emptyHome) !! j.
Proof.
  exact (createThing_replaces_entry "lamp" plug
           (set_things {[ "lamp" := mkSimpleThing "lamp" lamp ]} emptyHome)
           (createThing "lamp" plug
              (set_things {[ "lamp" := mkSimpleThing "lamp" lamp ]}
                          emptyHome)).1
           plug (mkSimpleThing "lamp" lamp) eq_refl eq_refl).
Defined.

(** X11, witness: the lamp is stored, the lamp and the plug are connected. *)
Lemma getNewThings_writes_href_only_witness :
  things (getNewThings "/things" "/properties" home).1
  = things (getThings home).1
  ∧ database (getNewThings "/things" "/properties" home).1
    = database (getThings home).1
  ∧ queries (getNewThings "/things" "/properties" home).1
    = queries (getThings home).1
  ∧ websockets (getNewThings "/things" "/properties" home).1
    = websockets (getThings home).1
  ∧ released (getNewThings "/things" "/properties" home).1
    = released (getThings home).1
  ∧ Forall2 sameExceptHref
      (connected (getThings home).1)
      (connected (getNewThings "/things" "/properties" home).1).
Proof.
  exact (getNewThings_writes_href_only "/things" "/properties" home
           (getThings home).1 (loadThings [lamp]) eq_refl).
Defined.

(** X12, witness: the lamp is loaded; the plug is addressed twice. *)
Lemma getNewThings_twice_witness :
  getNewThings "/things" "/properties"
    (getNewThings "/things" "/properties" (getThings home).1).1
  = getNewThings "/things" "/properties" (getThings home).1.
Proof.
  apply (getNewThings_twice "/things" "/properties" (getThings home).1).
  vm_compute. lia.
Defined.

(** X13, witness: the plug is created on [home], where it is connected. *)
Lemma createThing_then_getNewThings_witness :
  ∃ newThings,
    (getNewThings "/things" "/properties" (createThing "plug" plug home).1).2
    = Resolved newThings
    ∧ queries (getNewThings "/things" "/properties"
                 (createThing "plug" plug home).1).1
      = queries (createThing "plug" plug home).1
    ∧ Forall (λ d, id d ≠ "plug") newThings.
Proof.
  exact (createThing_then_getNewThings "/things" "/properties" "plug" plug home
           (createThing "plug" plug home).1 plug eq_refl).
Defined.

(** X15, witness: websockets 1, 2 and 3 are registered; 2 closes. *)
Lemma close_removes_registered_websocket_witness :
  websockets (emitClose 2 (listening ∅))
  = filter (λ s, s ≠ 2) (websockets (listening ∅))
  ∧ closeListeners (emitClose 2 (listening ∅)) = closeListeners (listening ∅)
  ∧ things (emitClose 2 (listening ∅)) = things (listening ∅)
  ∧ database (emitClose 2 (listening ∅)) = database (listening ∅)
  ∧ ∃ sent,
      delivered (network (onThingAdded serialize plug
                            (emitClose 2 (listening ∅))).1)
      = delivered (network (listening ∅)) ++ sent
      ∧ 2 ∉ sent.*1.
Proof.
  exact (close_removes_registered_websocket serialize 2 plug (listening ∅)
           eq_refl).
Defined.

(** X16, witness: websocket 4 joins websockets 1, 2 and 3. *)
Lemma registered_websocket_receives_witness :
  websockets (registerWebsocket 4 (listening ∅))
  = websockets (listening ∅) ++ [4]
  ∧ (onThingAdded serialize plug (registerWebsocket 4 (listening ∅))).2
    = Resolved tt
  ∧ delivered (network (onThingAdded serialize plug
                          (registerWebsocket 4 (listening ∅))).1)
    = delivered (network (listening ∅))
      ++ ((λ s, (s, serialize plug)) <$> websockets (listening ∅))
      ++ [(4, serialize plug)].
Proof.
  apply (registered_websocket_receives serialize 4 plug (listening ∅)).
  - intros s _. reflexivity.
  - reflexivity.
Defined.

(** X17, witness: the lamp is loaded from the store; the plug is created.
    The stored ids are the ids of the rows. *)
Lemma createThing_keeps_mirror_witness :
  dom (things (createThing "plug" plug (getThings home).1).1)
  = list_to_set (rows (database (createThing "plug" plug (getThings home).1).1)).*1.
Proof.
  apply (createThing_keeps_mirror (λ s : Store, list_to_set (rows s).*1)
           "plug" plug (getThings home).1 (Resolved plug)
           (mkStore [("lamp", lamp); ("plug", plug)] None)).
  - reflexivity.
  - reflexivity.
  - vm_compute. reflexivity.
Defined.

(** X18, witness: the lamp is loaded from the store and removed. *)
Lemma removeThing_keeps_mirror_witness :
  dom (things (removeThing "lamp" (getThings home).1).1)
  = list_to_set (rows (database (removeThing "lamp" (getThings home).1).1)).*1.
Proof.
  apply (removeThing_keeps_mirror (λ s : Store, list_to_set (rows s).*1)
           "lamp" (getThings home).1 (Resolved tt) (mkStore [] None)).
  - reflexivity.
  - reflexivity.
  - vm_compute. reflexivity.
Defined.

(** X19, witness: the store holds the lamp. *)
Lemma getThings_load_ids_witness :
  (getThings home).2 = Resolved (things (getThings home).1)
  ∧ dom (things (getThings home).1) = list_to_set (id <$> [lamp])
  ∧ size (things (getThings home).1) ≤ length [lamp].
Proof.
  exact (getThings_load_ids home [lamp] (mkStore [("lamp", lamp)] None)
           eq_refl eq_refl).
Defined.

(** X20, witness: websockets 1, 2 and 3 are registered; 4 registers, or 2
    closes, and the handlers of 1 still match. *)
Lemma handlersMatch_kept_witness :
  handlersMatch 1 (registerWebsocket 4 (listening ∅))
  ∧ handlersMatch 1 (emitClose 2 (listening ∅)).
Proof.
  destruct (handlersMatch_kept 1 4 (listening ∅) eq_refl) as [Hreg _].
  destruct (handlersMatch_kept 1 2 (listening ∅) eq_refl) as [_ Hclose].
  split; [exact Hreg|]. apply Hclose; [discriminate|reflexivity].
Defined.
